(** * Contact ingestion of the cold-nurture-campaign dashboard

    A shallow embedding of [src/components/contacts/ContactUpload.tsx]:
    the CSV ingestion pipeline ([validateEmail], [processFile]) and the
    submission step ([uploadContacts]), together with the properties the
    specification states about them.

    Conventions of the embedding.
    - A JavaScript string is a [string]; its characters stand for the code
      units U+0000 .. U+00FF.  White space and letter case are those that
      ECMAScript assigns to code units of that range.
    - [undefined] is [None]; a JavaScript array is a [list]; an index
      returned by [findIndex] is a [Z] ([-1] when nothing is found).
    - The calls that the component makes on its React state setters, on
      the notification sink and on the store client are recorded, in
      order, as a list of [Effect]s.
    - Indices and counts are integers.  The percentage handed to
      [setUploadProgress] is a binary64 number, given as the rational it
      denotes: each arithmetic operation rounds its exact result to the
      nearest number with 53 significant bits, ties to even.
    - The answers of the store that its tables do not decide (an [error]
      for a reason of transport or permission) are an input, [Replies]. *)

From Stdlib Require Import Ascii QArith Qpower Qround Lqa.
From stdpp Require Import gmap strings list fin_maps.

Local Open Scope Z_scope.

(** ** JavaScript strings *)

Module JsString.

(** [WhiteSpace] and [LineTerminator] code units below U+0100: the
    characters matched by [\s] and removed by [String.prototype.trim]. *)
Definition isWhiteSpace (c : ascii) : bool :=
  let n := nat_of_ascii c in
  ((9 <=? n)%nat && (n <=? 13)%nat) || (n =? 32)%nat || (n =? 160)%nat.

Definition isEmpty (s : string) : bool :=
  match s with EmptyString => true | String _ _ => false end.

Fixpoint trimStart (s : string) : string :=
  match s with
  | EmptyString => EmptyString
  | String c s' => if isWhiteSpace c then trimStart s' else s
  end.

Fixpoint trimEnd (s : string) : string :=
  match s with
  | EmptyString => EmptyString
  | String c s' =>
      let t := trimEnd s' in
      if isWhiteSpace c && isEmpty t then EmptyString else String c t
  end.

(** [s.trim()] *)
Definition trim (s : string) : string := trimEnd (trimStart s).

(** One code unit of [s.toLowerCase()]: A-Z and the upper-case letters
    of U+00C0 .. U+00DE (U+00D7, the multiplication sign, excepted). *)
Definition lowerUnit (c : ascii) : ascii :=
  let n := nat_of_ascii c in
  if ((65 <=? n)%nat && (n <=? 90)%nat)
     || ((192 <=? n)%nat && (n <=? 222)%nat && negb (n =? 215)%nat)
  then ascii_of_nat (n + 32) else c.

(** [s.toLowerCase()] *)
Fixpoint toLowerCase (s : string) : string :=
  match s with
  | EmptyString => EmptyString
  | String c s' => String (lowerUnit c) (toLowerCase s')
  end.

(** [s.startsWith(p)] *)
Fixpoint startsWith (s p : string) : bool :=
  match p, s with
  | EmptyString, _ => true
  | String _ _, EmptyString => false
  | String a p', String b s' => Ascii.eqb a b && startsWith s' p'
  end.

(** [s.includes(needle)] *)
Fixpoint includes (s needle : string) : bool :=
  startsWith s needle
  || match s with
     | EmptyString => false
     | String _ s' => includes s' needle
     end.

(** [s.endsWith(suffix)] *)
Fixpoint endsWith (s suffix : string) : bool :=
  String.eqb s suffix
  || match s with
     | EmptyString => false
     | String _ s' => endsWith s' suffix
     end.

(** [s.split(sep)] for a separator of one code unit.  The result is never
    empty: the empty string splits into one empty piece. *)
Fixpoint split (sep : ascii) (s : string) : list string :=
  match s with
  | EmptyString => [EmptyString]
  | String c s' =>
      if Ascii.eqb c sep then EmptyString :: split sep s'
      else match split sep s' with
           | piece :: rest => String c piece :: rest
           | [] => [String c EmptyString]
           end
  end.

Fixpoint dropLast (s : string) : string :=
  match s with
  | EmptyString => EmptyString
  | String c EmptyString => EmptyString
  | String c s' => String c (dropLast s')
  end.

Fixpoint lastUnit (s : string) : option ascii :=
  match s with
  | EmptyString => None
  | String c EmptyString => Some c
  | String _ s' => lastUnit s'
  end.

End JsString.

(** ** Regular expressions

    The fragment of the ECMAScript pattern language that [emailRegex] is
    written in: character classes, concatenation, alternation and
    repetition.  [test] decides a match of the whole input, which is what
    [RegExp.prototype.test] computes for a pattern enclosed in [^] and [$]
    without the [m] flag. *)

Module Regex.

Inductive regex : Type :=
| Void : regex
| Eps : regex
| Class : (ascii -> bool) -> regex
| Cat : regex -> regex -> regex
| Alt : regex -> regex -> regex
| Star : regex -> regex.

(** [r+] *)
Definition Plus (r : regex) : regex := Cat r (Star r).

(** a literal character *)
Definition Chr (c : ascii) : regex := Class (Ascii.eqb c).

Fixpoint nullable (r : regex) : bool :=
  match r with
  | Void => false
  | Eps => true
  | Class _ => false
  | Cat r1 r2 => nullable r1 && nullable r2
  | Alt r1 r2 => nullable r1 || nullable r2
  | Star _ => true
  end.

Fixpoint deriv (c : ascii) (r : regex) : regex :=
  match r with
  | Void => Void
  | Eps => Void
  | Class p => if p c then Eps else Void
  | Cat r1 r2 =>
      if nullable r1 then Alt (Cat (deriv c r1) r2) (deriv c r2)
      else Cat (deriv c r1) r2
  | Alt r1 r2 => Alt (deriv c r1) (deriv c r2)
  | Star r1 => Cat (deriv c r1) (Star r1)
  end.

Fixpoint matches (r : regex) (s : string) : bool :=
  match s with
  | EmptyString => nullable r
  | String c s' => matches (deriv c r) s'
  end.

(** [/^r$/.test(s)] *)
Definition test (r : regex) (s : string) : bool := matches r s.

(** The language of a pattern, as a relation. *)
Inductive lang : regex -> string -> Prop :=
| lang_eps : lang Eps EmptyString
| lang_class p c : p c = true -> lang (Class p) (String c EmptyString)
| lang_cat r1 r2 s1 s2 : lang r1 s1 -> lang r2 s2 -> lang (Cat r1 r2) (s1 +:+ s2)
| lang_alt_l r1 r2 s : lang r1 s -> lang (Alt r1 r2) s
| lang_alt_r r1 r2 s : lang r2 s -> lang (Alt r1 r2) s
| lang_star_nil r : lang (Star r) EmptyString
| lang_star_cons r s1 s2 : lang r s1 -> lang (Star r) s2 -> lang (Star r) (s1 +:+ s2).

End Regex.

(** ** Binary64 numbers

    A finite binary64 number is given as the rational it denotes, in
    lowest terms.  [round] is rounding to nearest, ties to even, onto the
    numbers with 53 significant bits and exponent at least -1074 (so
    including the subnormal ones); an arithmetic operation is the exact
    operation followed by [round].  Infinities and NaN are not
    represented: they arise from overflow and from division by zero, and
    the divisor of the only division in the component is the length of a
    non-empty array. *)

Module Binary64.

Definition pow2 (z : Z) : Q := (2 ^ z)%Q.

(** The integer [e] with [2^e <= x < 2^(e+1)], for positive [x]. *)
Definition exponentOf (x : Q) : Z :=
  let e0 := Z.log2 (Qnum x) - Z.log2 (Zpos (Qden x)) in
  if Qle_bool (pow2 e0) x then e0 else e0 - 1.

(** The exponent of the unit in the last place. *)
Definition ulpExponent (x : Q) : Z := Z.max (exponentOf x - 52) (-1074).

(** The nearest integer, the even one of two that are equally near. *)
Definition roundNearestEven (m : Q) : Z :=
  let f := Qfloor m in
  match (m - inject_Z f ?= 1 # 2)%Q with
  | Lt => f
  | Gt => f + 1
  | Eq => if Z.even f then f else f + 1
  end.

Definition roundPositive (x : Q) : Q :=
  let u := ulpExponent x in
  Qred (inject_Z (roundNearestEven (x / pow2 u)) * pow2 u).

Definition round (x : Q) : Q :=
  match (0 ?= x)%Q with
  | Eq => 0%Q
  | Lt => roundPositive (Qred x)
  | Gt => (- roundPositive (Qred (- x)))%Q
  end.

(** The Number value of an integer. *)
Definition ofZ (z : Z) : Q := round (inject_Z z).

(** [x / y] *)
Definition div (x y : Q) : Q := round (x / y).

(** [x * y] *)
Definition mul (x y : Q) : Q := round (x * y).

End Binary64.

(** ** The upload component: data *)

Import JsString.

(** [interface Contact]: the optional fields are [None] when [undefined]. *)
Record Contact : Type := mkContact {
  email : string;
  first_name : option string;
  last_name : option string;
  company : option string;
  title : option string
}.

(** The notifications the component raises through [toast]. *)
Inductive Toast : Type :=
| ToastXlsxSupport
    (* "XLSX Support": not available yet, use CSV *)
| ToastNoEmailColumn
    (* "Error": "No email column found. Please ensure your file has an
       email column." *)
| ToastFileProcessed (nValid nInvalid : nat)
    (* "File processed": found nValid valid and nInvalid invalid addresses *)
| ToastUploadRefused
    (* "Error": select a campaign and ensure you have valid contacts *)
| ToastUploadSuccess (n : nat)
    (* "Success": successfully uploaded n contacts *)
| ToastUploadFailed
    (* "Error": "Failed to upload contacts. Some emails might already exist
       in the campaign." *)
| ToastProcessFailed.
    (* "Error": "Failed to process file. Please check the format and try
       again." *)

(** The values that occur in the objects handed to the store. *)
Inductive Json : Type :=
| JNull
| JString (s : string)
| JNumber (n : Z).

(** The calls on the state setters of the component, on [toast] and on the
    store client, in the order in which they are made. *)
Inductive Effect : Type :=
| SetIsProcessing (b : bool)
| SetUploadProgress (p : Q)
| SetContacts (l : list Contact)
| SetValidContacts (l : list Contact)
| SetInvalidContacts (l : list Contact)
| SetFile (f : option string)
| SetSelectedCampaign (id : string)
| ShowToast (t : Toast)
| InsertContacts (rows : list (gmap string Json))
    (* supabase.from("contacts").insert(rows) *)
| UpdateCampaign (id : string) (fields : gmap string Json).
    (* supabase.from("campaigns").update(fields).eq("id", id) *)

(** The [useState] cells of [ContactUpload]. *)
Record State : Type := mkState {
  selectedCampaign : string;
  file : option string;
  contacts : list Contact;
  validContacts : list Contact;
  invalidContacts : list Contact;
  isProcessing : bool;
  uploadProgress : Q
}.

Definition applyEffect (st : State) (e : Effect) : State :=
  match e with
  | SetIsProcessing b =>
      mkState (selectedCampaign st) (file st) (contacts st) (validContacts st)
              (invalidContacts st) b (uploadProgress st)
  | SetUploadProgress p =>
      mkState (selectedCampaign st) (file st) (contacts st) (validContacts st)
              (invalidContacts st) (isProcessing st) p
  | SetContacts l =>
      mkState (selectedCampaign st) (file st) l (validContacts st)
              (invalidContacts st) (isProcessing st) (uploadProgress st)
  | SetValidContacts l =>
      mkState (selectedCampaign st) (file st) (contacts st) l
              (invalidContacts st) (isProcessing st) (uploadProgress st)
  | SetInvalidContacts l =>
      mkState (selectedCampaign st) (file st) (contacts st) (validContacts st)
              l (isProcessing st) (uploadProgress st)
  | SetFile f =>
      mkState (selectedCampaign st) f (contacts st) (validContacts st)
              (invalidContacts st) (isProcessing st) (uploadProgress st)
  | SetSelectedCampaign id =>
      mkState id (file st) (contacts st) (validContacts st)
              (invalidContacts st) (isProcessing st) (uploadProgress st)
  | ShowToast _ | InsertContacts _ | UpdateCampaign _ _ => st
  end.

(** The state once every update of a trace has been applied. *)
Definition runEffects (st : State) (es : list Effect) : State :=
  fold_left applyEffect es st.

(** ** validateEmail *)

(** [[^\s@]] *)
Definition atomChar (c : ascii) : bool :=
  negb (isWhiteSpace c || Ascii.eqb c "@").

(** The body of [/^[^\s@]+@[^\s@]+\.[^\s@]+$/]. *)
Definition emailRegex : Regex.regex :=
  Regex.Cat (Regex.Plus (Regex.Class atomChar))
    (Regex.Cat (Regex.Chr "@")
       (Regex.Cat (Regex.Plus (Regex.Class atomChar))
          (Regex.Cat (Regex.Chr ".")
             (Regex.Plus (Regex.Class atomChar))))).

Definition validateEmail (email : string) : bool :=
  Regex.test emailRegex email.

(** ** processFile: parsing *)

Definition isQuote (c : ascii) : bool :=
  Ascii.eqb c "034" || Ascii.eqb c "'".

(** [cell.replace(/^["']|["']$/g, '')]: the first alternative can match at
    offset 0 only and the second on the last code unit only; the matches
    are searched from left to right and do not overlap. *)
Definition stripQuotes (cell : string) : string :=
  let rest :=
    match cell with
    | String c cell' => if isQuote c then cell' else cell
    | EmptyString => cell
    end in
  match lastUnit rest with
  | Some c => if isQuote c then dropLast rest else rest
  | None => rest
  end.

(** [cell => cell.trim().replace(/^["']|["']$/g, '')] *)
Definition normalizeCell (cell : string) : string :=
  stripQuotes (trim cell).

(** [text.split('\n').map(row => row.split(',').map(...))] *)
Definition parseCsv (text : string) : list (list string) :=
  map (fun row => map normalizeCell (split "," row)) (split "010" text).

(** [rows[0]?.map(h => h.toLowerCase()) || []] *)
Definition headersOf (rows : list (list string)) : list string :=
  match rows !! 0%nat with
  | Some header => map toLowerCase header
  | None => []
  end.

(** [row.some(cell => cell.trim())] *)
Definition hasContent (row : list string) : bool :=
  existsb (fun cell => negb (isEmpty (trim cell))) row.

(** [rows.slice(1).filter(row => row.some(cell => cell.trim()))] *)
Definition dataRowsOf (rows : list (list string)) : list (list string) :=
  List.filter hasContent (drop 1 rows).

(** [Array.prototype.findIndex] *)
Fixpoint findIndexFrom {A : Type} (p : A -> bool) (l : list A) (i : Z) : Z :=
  match l with
  | [] => -1
  | x :: l' => if p x then i else findIndexFrom p l' (i + 1)
  end.

Definition findIndex {A : Type} (p : A -> bool) (l : list A) : Z :=
  findIndexFrom p l 0.

Definition emailHeader (h : string) : bool :=
  includes h "email" || includes h "e-mail" || includes h "mail".

Definition firstNameHeader (h : string) : bool :=
  includes h "first" || includes h "fname" || includes h "given".

Definition lastNameHeader (h : string) : bool :=
  includes h "last" || includes h "lname" || includes h "surname"
  || includes h "family".

Definition companyHeader (h : string) : bool :=
  includes h "company" || includes h "organization" || includes h "business".

Definition titleHeader (h : string) : bool :=
  includes h "title" || includes h "position" || includes h "job".

(** The five indices computed from the lower-cased header row. *)
Record ColumnMap : Type := mkColumnMap {
  emailIndex : Z;
  firstNameIndex : Z;
  lastNameIndex : Z;
  companyIndex : Z;
  titleIndex : Z
}.

Definition resolveColumns (headers : list string) : ColumnMap :=
  {| emailIndex := findIndex emailHeader headers;
     firstNameIndex := findIndex firstNameHeader headers;
     lastNameIndex := findIndex lastNameHeader headers;
     companyIndex := findIndex companyHeader headers;
     titleIndex := findIndex titleHeader headers |}.

(** ** processFile: the row loop *)

(** [row[i]] for an integer [i] *)
Definition cellAt (row : list string) (i : Z) : option string :=
  if i <? 0 then None else row !! Z.to_nat i.

(** [i >= 0 ? row[i]?.trim() : undefined] *)
Definition optionalField (row : list string) (i : Z) : option string :=
  if 0 <=? i then trim <$> cellAt row i else None.

(** [((index + 1) / dataRows.length) * 100]: the index and the length are
    integers, the quotient and the product are binary64 operations. *)
Definition progressAt (index total : nat) : Q :=
  Binary64.mul
    (Binary64.div (Binary64.ofZ (Z.of_nat index + 1))
                  (Binary64.ofZ (Z.of_nat total)))
    100.

(** What the callback of [dataRows.forEach] has accumulated: the calls it
    made on [setUploadProgress] and the three arrays it pushes to. *)
Record Loop : Type := mkLoop {
  reported : list Q;
  processedContacts : list Contact;
  valid : list Contact;
  invalid : list Contact
}.

Definition emptyLoop : Loop := mkLoop [] [] [] [].

(** The callback [(row, index) => { ... }]. *)
Definition processRow (cm : ColumnMap) (total : nat)
    (acc : Loop) (row : list string) (index : nat) : Loop :=
  let acc :=
    mkLoop (reported acc ++ [progressAt index total])
           (processedContacts acc) (valid acc) (invalid acc) in
  match trim <$> cellAt row (emailIndex cm) with
  | None => acc
  | Some email =>
      if isEmpty email then acc
      else
        let contact :=
          {| email := email;
             first_name := optionalField row (firstNameIndex cm);
             last_name := optionalField row (lastNameIndex cm);
             company := optionalField row (companyIndex cm);
             title := optionalField row (titleIndex cm) |} in
        if validateEmail email
        then mkLoop (reported acc) (processedContacts acc ++ [contact])
                    (valid acc ++ [contact]) (invalid acc)
        else mkLoop (reported acc) (processedContacts acc ++ [contact])
                    (valid acc) (invalid acc ++ [contact])
  end.

(** [Array.prototype.forEach], the callback receiving element and index. *)
Fixpoint forEachFrom {A B : Type} (f : B -> A -> nat -> B)
    (l : list A) (index : nat) (acc : B) : B :=
  match l with
  | [] => acc
  | x :: l' => forEachFrom f l' (S index) (f acc x index)
  end.

Definition runLoop (cm : ColumnMap) (dataRows : list (list string)) : Loop :=
  forEachFrom (processRow cm (length dataRows)) dataRows 0%nat emptyLoop.

(** The part of [processFile] that follows the parsing of [rows], up to
    the end of the [try] block. *)
Definition ingestRows (rows : list (list string)) : list Effect :=
  let headers := headersOf rows in
  let dataRows := dataRowsOf rows in
  let cm := resolveColumns headers in
  if emailIndex cm =? -1 then
    [ShowToast ToastNoEmailColumn; SetIsProcessing false]
  else
    let l := runLoop cm dataRows in
    map SetUploadProgress (reported l)
    ++ [SetContacts (processedContacts l);
        SetValidContacts (valid l);
        SetInvalidContacts (invalid l);
        ShowToast (ToastFileProcessed (length (valid l)) (length (invalid l)))].

(** [let rows = []; if (csv) { rows = ... } else if (xlsx) { ...; return }]:
    [None] is the early return of the spreadsheet branch. *)
Definition readRows (fileName text : string) : option (list (list string)) :=
  if endsWith fileName ".csv" then Some (parseCsv text)
  else if endsWith fileName ".xlsx" then None
  else Some [].

(** [processFile(file)], given the name of the file and the text that
    [await file.text()] yields.  The last two effects are the [finally]
    block, which also runs after the early [return]s.  The [catch] block
    is not entered: the text is given and nothing that follows throws. *)
Definition processFile (fileName text : string) : list Effect :=
  [SetIsProcessing true; SetUploadProgress 0]
  ++ match readRows fileName text with
     | Some rows => ingestRows rows
     | None => [ShowToast ToastXlsxSupport; SetIsProcessing false]
     end
  ++ [SetIsProcessing false; SetUploadProgress 0].

(** ** uploadContacts and the data store *)

(** [value || null] for an optional string: [undefined] and the empty
    string are falsy. *)
Definition orNull (value : option string) : Json :=
  match value with
  | None => JNull
  | Some s => if isEmpty s then JNull else JString s
  end.

(** The object literal built for one contact in [uploadContacts]. *)
Definition contactToInsert (campaign : string) (contact : Contact)
    : gmap string Json :=
  <["campaign_id" := JString campaign]>
  (<["email" := JString (email contact)]>
  (<["first_name" := orNull (first_name contact)]>
  (<["last_name" := orNull (last_name contact)]>
  (<["company" := orNull (company contact)]>
  (<["title" := orNull (title contact)]> ∅))))).

Definition contactsToInsert (st : State) : list (gmap string Json) :=
  map (contactToInsert (selectedCampaign st)) (validContacts st).

(** A row of [public.campaigns], reduced to the columns the component
    reads or writes. *)
Record Campaign : Type := mkCampaign {
  name : string;
  status : string;
  total_contacts : Z
}.

(** The two tables: [campaigns] by primary key [id], and the rows of
    [contacts] in insertion order. *)
Record Store : Type := mkStore {
  campaigns : gmap string Campaign;
  contactRows : list (gmap string Json)
}.

(** [(campaign_id, email)] of a contact row, both [NOT NULL] text. *)
Definition contactKey (row : gmap string Json) : option (string * string) :=
  match row !! "campaign_id", row !! "email" with
  | Some (JString c), Some (JString e) => Some (c, e)
  | _, _ => None
  end.

Definition keyAdmissible (db : Store) (seen : list (string * string))
    (row : gmap string Json) : bool :=
  match contactKey row with
  | Some (c, e) =>
      bool_decide (is_Some (campaigns db !! c))
      && negb (bool_decide ((c, e) ∈ seen))
  | None => false
  end.

Fixpoint rowsAdmissible (db : Store) (seen : list (string * string))
    (rows : list (gmap string Json)) : bool :=
  match rows with
  | [] => true
  | row :: rows' =>
      keyAdmissible db seen row
      && match contactKey row with
         | Some k => rowsAdmissible db (k :: seen) rows'
         | None => false
         end
  end.

(** What the store answers for a reason that its tables do not decide
    (transport, permissions): whether the insert, and whether the update,
    comes back with an [error].  A request answered with an [error] has
    written nothing. *)
Record Replies : Type := mkReplies {
  insertError : bool;
  updateError : bool
}.

(** [supabase.from("contacts").insert(rows)] under the constraints of the
    schema: [campaign_id] references [campaigns(id)] and
    [UNIQUE(campaign_id, email)].  The statement is atomic; [None] is the
    [error] result, which [error] forces. *)
Definition insertContacts (error : bool) (rows : list (gmap string Json))
    (db : Store) : option Store :=
  if error then None
  else if rowsAdmissible db (omap contactKey (contactRows db)) rows
  then Some (mkStore (campaigns db) (contactRows db ++ rows))
  else None.

(** The fields of an update object applied to a campaign row; the
    component only ever writes [total_contacts]. *)
Definition patchCampaign (fields : gmap string Json) (c : Campaign) : Campaign :=
  match fields !! "total_contacts" with
  | Some (JNumber n) => mkCampaign (name c) (status c) n
  | _ => c
  end.

(** The tables once the update is carried out: every campaign whose key
    is [id] is patched, and there is at most one. *)
Definition writeCampaign (id : string) (fields : gmap string Json)
    (db : Store) : Store :=
  mkStore (alter (patchCampaign fields) id (campaigns db)) (contactRows db).

(** [supabase.from("campaigns").update(fields).eq("id", id)]; [None] is
    the [error] result. *)
Definition updateCampaign (error : bool) (id : string)
    (fields : gmap string Json) (db : Store) : option Store :=
  if error then None else Some (writeCampaign id fields db).

(** [uploadContacts()]: the effects on the component and the store it
    leaves behind.  An [error] of the insert or of the update is thrown
    and caught: the failure notification is raised and the form is kept;
    the rows of an insert that went through stay stored when the update
    fails. *)
Definition uploadContacts (replies : Replies) (st : State) (db : Store)
    : list Effect * Store :=
  if isEmpty (selectedCampaign st) || (length (validContacts st) =? 0)%nat
  then ([ShowToast ToastUploadRefused], db)
  else
    match insertContacts (insertError replies) (contactsToInsert st) db with
    | None =>
        ([SetIsProcessing true; InsertContacts (contactsToInsert st);
          ShowToast ToastUploadFailed; SetIsProcessing false], db)
    | Some db1 =>
        let fields : gmap string Json :=
          {[ "total_contacts" := JNumber (Z.of_nat (length (validContacts st))) ]} in
        match updateCampaign (updateError replies) (selectedCampaign st) fields db1 with
        | None =>
            ([SetIsProcessing true; InsertContacts (contactsToInsert st);
              UpdateCampaign (selectedCampaign st) fields;
              ShowToast ToastUploadFailed; SetIsProcessing false], db1)
        | Some db2 =>
            ([SetIsProcessing true; InsertContacts (contactsToInsert st);
              UpdateCampaign (selectedCampaign st) fields;
              ShowToast (ToastUploadSuccess (length (validContacts st)));
              SetFile None; SetContacts []; SetValidContacts [];
              SetInvalidContacts []; SetSelectedCampaign "";
              SetIsProcessing false], db2)
        end
    end.

(** ** Vocabulary of the specification *)

(** A run of one or more characters that are neither white space nor "@". *)
Definition atomRun (s : string) : Prop :=
  s <> EmptyString
  /\ forall c, In c (String.list_ascii_of_string s) ->
       isWhiteSpace c = false /\ c <> "@"%char.

(** The address shape of the specification: run, "@", run, ".", run. *)
Definition addressShape (e : string) : Prop :=
  exists l d t : string,
    e = l +:+ "@" +:+ d +:+ "." +:+ t
    /\ atomRun l /\ atomRun d /\ atomRun t.

(** The logical fields of a ColumnMap and their keyword sets. *)
Inductive Field : Type :=
| FEmail | FFirstName | FLastName | FCompany | FTitle.

Definition keywords (f : Field) : list string :=
  match f with
  | FEmail => ["email"; "e-mail"; "mail"]
  | FFirstName => ["first"; "fname"; "given"]
  | FLastName => ["last"; "lname"; "surname"; "family"]
  | FCompany => ["company"; "organization"; "business"]
  | FTitle => ["title"; "position"; "job"]
  end.

Definition columnOf (cm : ColumnMap) (f : Field) : Z :=
  match f with
  | FEmail => emailIndex cm
  | FFirstName => firstNameIndex cm
  | FLastName => lastNameIndex cm
  | FCompany => companyIndex cm
  | FTitle => titleIndex cm
  end.

(** A header cell matches a field when its lower-cased text contains one
    of the keywords of the field. *)
Definition headerMatches (f : Field) (cell : string) : Prop :=
  exists k, k ∈ keywords f /\ includes (toLowerCase cell) k = true.

(** ColumnMap resolution of a header row as it stands in the file. *)
Definition columnMapOf (header : list string) : ColumnMap :=
  resolveColumns (map toLowerCase header).

(** The email cell of a data row is missing or blank after trimming. *)
Definition emailCellBlank (cm : ColumnMap) (row : list string) : bool :=
  match cellAt row (emailIndex cm) with
  | Some cell => isEmpty (trim cell)
  | None => true
  end.

(** The Contact candidate of a data row, if it has one. *)
Definition candidateOf (cm : ColumnMap) (row : list string) : option Contact :=
  if emailCellBlank cm row then None
  else
    Some {| email := default EmptyString (trim <$> cellAt row (emailIndex cm));
            first_name := optionalField row (firstNameIndex cm);
            last_name := optionalField row (lastNameIndex cm);
            company := optionalField row (companyIndex cm);
            title := optionalField row (titleIndex cm) |}.

(** The candidates of the data rows, in row order. *)
Definition candidatesOf (cm : ColumnMap) (dataRows : list (list string))
    : list Contact :=
  omap (candidateOf cm) dataRows.

Definition hasValidEmail (c : Contact) : bool := validateEmail (email c).

(** Removal of a pair of equal quote characters around a cell, and of
    nothing else: the reading "a single matching pair". *)
Definition stripMatchingPair (s : string) : string :=
  match s with
  | String q rest =>
      match lastUnit rest with
      | Some q' => if isQuote q && Ascii.eqb q q' then dropLast rest else s
      | None => s
      end
  | EmptyString => s
  end.

Definition stripsMatchingPairOnly (cell : string) : Prop :=
  normalizeCell cell = stripMatchingPair (trim cell).

(** The values handed to [setUploadProgress], in order. *)
Definition progressUpdates (es : list Effect) : list Q :=
  omap (fun e => match e with SetUploadProgress p => Some p | _ => None end) es.

(** Progress of one ingestion over [n >= 1] data rows: besides the reset
    to 0 before and after the rows, one value per data row, the value at
    index [i] being [((i+1)/n) * 100] as binary64 arithmetic gives it,
    non-decreasing and ending on 100. *)
Definition reportsProgressPerRow (fileName text : string) : Prop :=
  forall rows, readRows fileName text = Some rows ->
    let n := length (dataRowsOf rows) in
    (1 <= n)%nat ->
    exists perRow : list Q,
      progressUpdates (processFile fileName text) = 0%Q :: perRow ++ [0%Q]
      /\ length perRow = n
      /\ (forall i, (i < n)%nat ->
            exists p, perRow !! i = Some p
              /\ p = Binary64.mul
                       (Binary64.div (Binary64.ofZ (Z.of_nat i + 1))
                                     (Binary64.ofZ (Z.of_nat n)))
                       100)
      /\ (forall i j p q, (i <= j)%nat ->
            perRow !! i = Some p -> perRow !! j = Some q -> (p <= q)%Q)
      /\ (exists p, last perRow = Some p /\ (p == 100)%Q).

(** An upload went through: the success notification was raised. *)
Definition uploadSucceeded (es : list Effect) : Prop :=
  exists n, ShowToast (ToastUploadSuccess n) ∈ es.

(** The text of a file made of the given lines. *)
Definition lines (ls : list string) : string :=
  String.concat (String "010" EmptyString) ls.

(** The predicate that [processFile] hands to [findIndex] for a field. *)
Definition headerPredicate (f : Field) : string -> bool :=
  match f with
  | FEmail => emailHeader
  | FFirstName => firstNameHeader
  | FLastName => lastNameHeader
  | FCompany => companyHeader
  | FTitle => titleHeader
  end.

Definition startsWithQuote (s : string) : bool :=
  match s with
  | String c _ => isQuote c
  | EmptyString => false
  end.

Definition endsWithQuote (s : string) : bool :=
  match lastUnit s with
  | Some c => isQuote c
  | None => false
  end.

(** A row in which the cell of the email column reads as blank: the row
    extended with empty cells up to and including column [i]. *)
Definition padTo (i : Z) (row : list string) : list string :=
  row ++ replicate (Z.to_nat i + 1 - length row) EmptyString.

(** ** Sample inputs *)

(** The state of the component when it is mounted. *)
Definition initialState : State := mkState "" None [] [] [] false 0%Q.

(** Three data rows: a valid address, a blank email cell, an address of
    the wrong shape. *)
Definition sampleText : string :=
  lines ["Email,First Name"; "a@b.com,Alice"; ",Bob"; "not-an-email"].

Definition sampleRows : list (list string) := parseCsv sampleText.

(** A header row without an email column, followed by one data row. *)
Definition noEmailText : string := lines ["name,phone"; "Bob,555"].

Definition noEmailRows : list (list string) := parseCsv noEmailText.

(** A cell that opens with a double quote and does not close with one. *)
Definition unbalancedCell : string := String "034" "abc".

(** A column map whose columns lie beyond the cells of [shortRow]. *)
Definition wideColumns : ColumnMap := mkColumnMap 2 3 4 5 6.

Definition shortRow : list string := ["Alice"].

(** The keys of the object built for an inserted contact. *)
Definition insertKeys : gset string :=
  {[ "campaign_id"; "email"; "first_name"; "last_name"; "company"; "title" ]}.

(** A store that answers without an error of its own, and one whose
    update comes back with an error. *)
Definition noErrors : Replies := mkReplies false false.

Definition updateRejected : Replies := mkReplies false true.

(** A store with one campaign, and two batches selected for it in turn. *)
Definition sampleStore : Store :=
  mkStore {[ "c1" := mkCampaign "Launch" "draft" 0 ]} [].

Definition firstBatch : State :=
  mkState "c1" (Some "first.csv") []
    [mkContact "a@b.com" (Some "Alice") None None None;
     mkContact "c@d.org" None None (Some "Acme") None]
    [] false 0%Q.

Definition secondBatch : State :=
  mkState "c1" (Some "second.csv") []
    [mkContact "e@f.net" None None None None] [] false 0%Q.

(** ** The rest of the component *)

(** What [handleFileUpload] does with the files of the change event: it
    returns at once when there is none, raises the "Invalid file type"
    notification and returns when the name of the first one ends in
    neither extension, and otherwise records the file and starts
    [processFile] on it. *)
Inductive FileChoice : Type :=
| NoFileChosen
| InvalidFileType
| FileAccepted (es : list Effect).

(** [handleFileUpload(event)], the files given by name and text. *)
Definition handleFileUpload (files : list (string * string)) : FileChoice :=
  match files !! 0%nat with
  | None => NoFileChosen
  | Some (fileName, text) =>
      if negb (endsWith fileName ".csv") && negb (endsWith fileName ".xlsx")
      then InvalidFileType
      else FileAccepted (SetFile (Some fileName) :: processFile fileName text)
  end.

(** [processFile(file)] where [await file.text()] either yields the text
    or rejects.  A rejection is caught: the failure notification is
    raised, and the [finally] block runs. *)
Definition processFileRead (fileName : string) (content : option string)
    : list Effect :=
  match content with
  | Some text => processFile fileName text
  | None =>
      [SetIsProcessing true; SetUploadProgress 0;
       ShowToast ToastProcessFailed;
       SetIsProcessing false; SetUploadProgress 0]
  end.

(** The state of the component after [handleFileUpload]. *)
Definition afterFileChoice (st : State) (choice : FileChoice) : State :=
  match choice with
  | FileAccepted es => runEffects st es
  | NoFileChosen | InvalidFileType => st
  end.

(** [validContacts.length > 0 && <Button ...>] *)
Definition uploadButtonShown (st : State) : bool :=
  (0 <? length (validContacts st))%nat.

(** [disabled={isProcessing || !selectedCampaign}] *)
Definition uploadButtonDisabled (st : State) : bool :=
  isProcessing st || isEmpty (selectedCampaign st).

(** ** Further vocabulary *)

(** The number of occurrences of a character in a string. *)
Fixpoint countUnit (c : ascii) (s : string) : nat :=
  match s with
  | EmptyString => 0
  | String a s' => (if Ascii.eqb a c then 1 else 0) + countUnit c s'
  end.

Definition firstUnit (s : string) : option ascii :=
  match s with
  | EmptyString => None
  | String c _ => Some c
  end.

(** Neither the first nor the last character is white space. *)
Definition trimmed (s : string) : Prop :=
  (forall c, firstUnit s = Some c -> isWhiteSpace c = false)
  /\ (forall c, lastUnit s = Some c -> isWhiteSpace c = false).

Definition occursIn (c : ascii) (s : string) : Prop :=
  In c (String.list_ascii_of_string s).

(** The [(campaign_id, email)] pairs held by the contacts table. *)
Definition storeKeys (db : Store) : list (string * string) :=
  omap contactKey (contactRows db).

(** The constraints of the schema on the contacts table: the two key
    columns are filled, the pair is unique, the campaign exists. *)
Definition storeConsistent (db : Store) : Prop :=
  Forall (fun row => is_Some (contactKey row)) (contactRows db)
  /\ NoDup (storeKeys db)
  /\ Forall (fun k => is_Some (campaigns db !! k.1)) (storeKeys db).

(** The keys of the four nullable columns of an inserted contact. *)
Definition nullableKeys : list string :=
  ["first_name"; "last_name"; "company"; "title"].

(** The notifications of a trace. *)
Definition toastsOf (es : list Effect) : list Toast :=
  omap (fun e => match e with ShowToast t => Some t | _ => None end) es.

(** The cells of one line: [row.split(',').map(...)]. *)
Definition parseLine (line : string) : list string :=
  map normalizeCell (split "," line).

(** A line with a carriage return at its end, as before the line feed of
    a CRLF line break. *)
Definition withCR (line : string) : string :=
  line +:+ String "013" EmptyString.

(** * Properties *)

(** ** Strings *)

Section StringFacts.

Lemma append_cons (c : ascii) (s t : string) :
  String c s +:+ t = String c (s +:+ t).
Proof. reflexivity. Qed.

Lemma append_empty_l (s : string) : EmptyString +:+ s = s.
Proof. reflexivity. Qed.

Lemma append_empty_r (s : string) : s +:+ EmptyString = s.
Proof.
  induction s as [|c s IH]; [reflexivity |].
  rewrite append_cons. now f_equal.
Qed.

Lemma append_eq_empty (s1 s2 : string) :
  s1 +:+ s2 = EmptyString -> s1 = EmptyString /\ s2 = EmptyString.
Proof.
  destruct s1; [rewrite append_empty_l; auto | rewrite append_cons; discriminate].
Qed.

Lemma isEmpty_false (s : string) : isEmpty s = false <-> s <> EmptyString.
Proof. destruct s; simpl; split; congruence. Qed.

Lemma chars_append (s1 s2 : string) :
  String.list_ascii_of_string (s1 +:+ s2)
  = String.list_ascii_of_string s1 ++ String.list_ascii_of_string s2.
Proof.
  induction s1 as [|c s1 IH]; [reflexivity |].
  rewrite append_cons. simpl. now f_equal.
Qed.

End StringFacts.

(** ** The matcher decides the language of a pattern *)

Module RegexFacts.
Import Regex.

Lemma nullable_empty (r : regex) : nullable r = true <-> lang r EmptyString.
Proof.
  split.
  - induction r; simpl; intros H; try discriminate.
    + constructor.
    + apply andb_prop in H as [H1 H2].
      change EmptyString with (EmptyString +:+ EmptyString).
      constructor; auto.
    + apply orb_prop in H as [H | H]; [apply lang_alt_l | apply lang_alt_r]; auto.
    + constructor.
  - intros H. remember EmptyString as s eqn:Es.
    induction H; simpl; try reflexivity; try discriminate.
    + apply append_eq_empty in Es as [-> ->].
      rewrite IHlang1, IHlang2; reflexivity.
    + rewrite IHlang by assumption. reflexivity.
    + rewrite IHlang by assumption. apply orb_true_r.
Qed.

Lemma deriv_sound (c : ascii) (r : regex) :
  forall s, lang (deriv c r) s -> lang r (String c s).
Proof.
  induction r; simpl; intros s H.
  - inversion H.
  - inversion H.
  - destruct (b c) eqn:Hb; inversion H; subst. now constructor.
  - destruct (nullable r1) eqn:Hn.
    + inversion H as [| | | ? ? ? H' | ? ? ? H' | |]; subst.
      * inversion H' as [| | ? ? s1 s2 H1 H2 | | | |]; subst.
        change (String c (s1 +:+ s2)) with (String c s1 +:+ s2).
        constructor; auto.
      * change (String c s) with (EmptyString +:+ String c s).
        constructor; [now apply nullable_empty | auto].
    + inversion H as [| | ? ? s1 s2 H1 H2 | | | |]; subst.
      change (String c (s1 +:+ s2)) with (String c s1 +:+ s2).
      constructor; auto.
  - inversion H; subst; [apply lang_alt_l | apply lang_alt_r]; auto.
  - inversion H as [| | ? ? s1 s2 H1 H2 | | | |]; subst.
    change (String c (s1 +:+ s2)) with (String c s1 +:+ s2).
    constructor; auto.
Qed.

Lemma deriv_complete (r : regex) (s0 : string) :
  lang r s0 -> forall c s, s0 = String c s -> lang (deriv c r) s.
Proof.
  induction 1 as [ | p a Hp | r1 r2 s1 s2 H1 IH1 H2 IH2 | r1 r2 s0 H IH
                 | r1 r2 s0 H IH | r | r s1 s2 H1 IH1 H2 IH2 ];
    intros c s E; simpl.
  - discriminate.
  - injection E as -> <-. rewrite Hp. constructor.
  - destruct s1 as [|a s1']; [rewrite append_empty_l in E | rewrite append_cons in E].
    + subst s2. apply nullable_empty in H1. rewrite H1.
      apply lang_alt_r. now apply IH2.
    + injection E as -> <-.
      destruct (nullable r1).
      * apply lang_alt_l. constructor; [now apply IH1 | assumption].
      * constructor; [now apply IH1 | assumption].
  - apply lang_alt_l. now apply IH.
  - apply lang_alt_r. now apply IH.
  - discriminate.
  - destruct s1 as [|a s1']; [rewrite append_empty_l in E | rewrite append_cons in E].
    + now apply IH2.
    + injection E as -> <-. constructor; [now apply IH1 | assumption].
Qed.

Theorem matches_lang (s : string) :
  forall r, matches r s = true <-> lang r s.
Proof.
  induction s as [|c s IH]; intros r; simpl.
  - apply nullable_empty.
  - rewrite IH. split.
    + apply deriv_sound.
    + intros H. now apply (deriv_complete r (String c s)).
Qed.

Lemma lang_chr (c : ascii) (s : string) :
  lang (Chr c) s <-> s = String c EmptyString.
Proof.
  unfold Chr. split.
  - inversion 1 as [| p a Hp | | | | |]; subst.
    apply Ascii.eqb_eq in Hp. now subst.
  - intros ->. constructor. apply Ascii.eqb_refl.
Qed.

Lemma lang_star_class (p : ascii -> bool) (s : string) :
  lang (Star (Class p)) s
  <-> forall c, In c (String.list_ascii_of_string s) -> p c = true.
Proof.
  split.
  - intros H. remember (Star (Class p)) as r eqn:Er.
    induction H; try discriminate.
    + intros c [].
    + injection Er as ->. intros c Hc.
      rewrite chars_append in Hc. apply in_app_or in Hc as [Hc | Hc].
      * inversion H; subst. simpl in Hc. destruct Hc as [<- | []]. assumption.
      * now apply IHlang2.
  - induction s as [|a s IH]; simpl; intros H.
    + constructor.
    + change (String a s) with (String a EmptyString +:+ s).
      constructor; [constructor; auto | apply IH; auto].
Qed.

Lemma lang_plus_class (p : ascii -> bool) (s : string) :
  lang (Plus (Class p)) s
  <-> s <> EmptyString
      /\ forall c, In c (String.list_ascii_of_string s) -> p c = true.
Proof.
  unfold Plus. split.
  - inversion 1 as [| | ? ? s1 s2 H1 H2 | | | |]; subst.
    inversion H1 as [| q a Ha | | | | |]; subst.
    rewrite append_cons, append_empty_l. simpl. split; [discriminate |].
    intros x [<- | Hx]; [assumption |].
    now apply (proj1 (lang_star_class p s2)).
  - intros [Hne Hall]. destruct s as [|a s]; [congruence |].
    change (String a s) with (String a EmptyString +:+ s).
    constructor.
    + constructor. apply Hall. now left.
    + apply lang_star_class. intros c Hc. apply Hall. now right.
Qed.

Lemma lang_cat_inv (r1 r2 : regex) (s : string) :
  lang (Cat r1 r2) s
  <-> exists s1 s2, s = s1 +:+ s2 /\ lang r1 s1 /\ lang r2 s2.
Proof.
  split.
  - inversion 1; subst. eauto.
  - intros (s1 & s2 & -> & H1 & H2). now constructor.
Qed.

End RegexFacts.

(** ** validateEmail *)

Lemma atomChar_spec (c : ascii) :
  atomChar c = true <-> isWhiteSpace c = false /\ c <> "@"%char.
Proof.
  unfold atomChar. rewrite negb_true_iff, orb_false_iff.
  rewrite <- (not_true_iff_false (Ascii.eqb c "@")), Ascii.eqb_eq. tauto.
Qed.

Lemma atomRun_lang (s : string) :
  Regex.lang (Regex.Plus (Regex.Class atomChar)) s <-> atomRun s.
Proof.
  rewrite RegexFacts.lang_plus_class. unfold atomRun.
  split; intros [Hne Hall]; split; auto; intros c Hc; apply atomChar_spec; auto.
Qed.

(** C1. For every string [e], [validateEmail e] holds exactly when [e] is,
    from its first to its last character, a run of one or more characters
    that are neither white space nor "@", then "@", then such a run, then
    ".", then such a run; nothing stricter is checked. *)
Theorem validateEmail_address_shape (e : string) :
  validateEmail e = true <-> addressShape e.
Proof.
  unfold validateEmail, Regex.test, emailRegex, addressShape.
  rewrite RegexFacts.matches_lang.
  rewrite RegexFacts.lang_cat_inv.
  split.
  - intros (l & s1 & -> & Hl & H1).
    apply RegexFacts.lang_cat_inv in H1 as (a & s2 & -> & Ha & H2).
    apply RegexFacts.lang_cat_inv in H2 as (d & s3 & -> & Hd & H3).
    apply RegexFacts.lang_cat_inv in H3 as (b & t & -> & Hb & Ht).
    apply RegexFacts.lang_chr in Ha as ->.
    apply RegexFacts.lang_chr in Hb as ->.
    exists l, d, t. rewrite <- !atomRun_lang. auto.
  - intros (l & d & t & -> & Hl & Hd & Ht).
    exists l, ("@" +:+ d +:+ "." +:+ t). split; [reflexivity |].
    split; [now apply atomRun_lang |].
    apply RegexFacts.lang_cat_inv. exists "@", (d +:+ "." +:+ t).
    split; [reflexivity |]. split; [now apply RegexFacts.lang_chr |].
    apply RegexFacts.lang_cat_inv. exists d, ("." +:+ t).
    split; [reflexivity |]. split; [now apply atomRun_lang |].
    apply RegexFacts.lang_cat_inv. exists ".", t.
    split; [reflexivity |]. split; [now apply RegexFacts.lang_chr |].
    now apply atomRun_lang.
Qed.

(** ** The row loop computes the candidates and their partition *)

Section LoopFacts.

Variable cm : ColumnMap.

Lemma processRow_candidate (total : nat) (acc : Loop) (row : list string)
    (index : nat) :
  processRow cm total acc row index =
  match candidateOf cm row with
  | None =>
      mkLoop (reported acc ++ [progressAt index total])
             (processedContacts acc) (valid acc) (invalid acc)
  | Some c =>
      if hasValidEmail c
      then mkLoop (reported acc ++ [progressAt index total])
                  (processedContacts acc ++ [c]) (valid acc ++ [c]) (invalid acc)
      else mkLoop (reported acc ++ [progressAt index total])
                  (processedContacts acc ++ [c]) (valid acc) (invalid acc ++ [c])
  end.
Proof.
  unfold processRow, candidateOf, emailCellBlank, hasValidEmail.
  destruct (cellAt row (emailIndex cm)) as [cell|]; simpl; [|reflexivity].
  destruct (isEmpty (trim cell)); reflexivity.
Qed.

Lemma forEachFrom_processRow (total : nat) (rows : list (list string)) :
  forall (index : nat) (acc : Loop),
    forEachFrom (processRow cm total) rows index acc =
    mkLoop
      (reported acc
         ++ map (fun i => progressAt i total) (seq index (length rows)))
      (processedContacts acc ++ candidatesOf cm rows)
      (valid acc ++ List.filter hasValidEmail (candidatesOf cm rows))
      (invalid acc
         ++ List.filter (fun c => negb (hasValidEmail c)) (candidatesOf cm rows)).
Proof.
  induction rows as [|row rows IH]; intros index acc.
  - simpl. rewrite !app_nil_r. now destruct acc.
  - cbn [forEachFrom]. rewrite IH, processRow_candidate.
    unfold candidatesOf. cbn [omap list_omap length seq map].
    destruct (candidateOf cm row) as [c|]; cbn [reported processedContacts valid invalid].
    + destruct (hasValidEmail c) eqn:Hv; cbn [reported processedContacts valid invalid];
        cbn [List.filter]; rewrite Hv; cbn [negb];
        rewrite <- ?app_assoc; reflexivity.
    + rewrite <- ?app_assoc; reflexivity.
Qed.

Lemma runLoop_spec (dataRows : list (list string)) :
  runLoop cm dataRows =
  mkLoop
    (map (fun i => progressAt i (length dataRows)) (seq 0 (length dataRows)))
    (candidatesOf cm dataRows)
    (List.filter hasValidEmail (candidatesOf cm dataRows))
    (List.filter (fun c => negb (hasValidEmail c)) (candidatesOf cm dataRows)).
Proof. unfold runLoop. now rewrite forEachFrom_processRow. Qed.

Lemma candidates_count (rows : list (list string)) :
  (length (candidatesOf cm rows)
   + length (List.filter (emailCellBlank cm) rows) = length rows)%nat.
Proof.
  unfold candidatesOf.
  induction rows as [|row rows IH]; [reflexivity |].
  cbn [omap list_omap List.filter length]. unfold candidateOf at 1.
  destruct (emailCellBlank cm row); cbn [length]; lia.
Qed.

Lemma candidate_origin (rows : list (list string)) (c : Contact) :
  c ∈ candidatesOf cm rows ->
  exists row, row ∈ rows /\ emailCellBlank cm row = false
              /\ candidateOf cm row = Some c.
Proof.
  unfold candidatesOf. rewrite list_elem_of_omap.
  intros (row & Hrow & Hc). exists row. split; [assumption |].
  split; [|assumption].
  unfold candidateOf in Hc. now destruct (emailCellBlank cm row).
Qed.

Lemma candidate_email_nonblank (row : list string) (c : Contact) :
  candidateOf cm row = Some c -> email c <> EmptyString.
Proof.
  unfold candidateOf, emailCellBlank.
  destruct (cellAt row (emailIndex cm)) as [cell|]; [|discriminate].
  destruct (isEmpty (trim cell)) eqn:He; [discriminate |].
  intros [= <-]. simpl. now apply isEmpty_false.
Qed.

End LoopFacts.

Lemma partition_count {A : Type} (p : A -> bool) (l : list A) :
  (length (List.filter p l) + length (List.filter (fun x => negb (p x)) l)
   = length l)%nat.
Proof.
  induction l as [|x l IH]; [reflexivity |].
  cbn [List.filter]. destruct (p x); cbn [negb length]; lia.
Qed.

Lemma filter_sublist {A : Type} (p : A -> bool) (l : list A) :
  sublist (List.filter p l) l.
Proof.
  induction l as [|x l IH]; [constructor |].
  cbn [List.filter]. destruct (p x); now constructor.
Qed.

Lemma elem_of_List_filter {A : Type} (p : A -> bool) (l : list A) (x : A) :
  x ∈ List.filter p l <-> x ∈ l /\ p x = true.
Proof. rewrite !list_elem_of_In. apply filter_In. Qed.

(** ** The trace and the final state of processFile *)

Lemma ingestRows_resolved (rows : list (list string)) :
  emailIndex (resolveColumns (headersOf rows)) <> -1 ->
  ingestRows rows =
  let l := runLoop (resolveColumns (headersOf rows)) (dataRowsOf rows) in
  map SetUploadProgress (reported l)
  ++ [SetContacts (processedContacts l);
      SetValidContacts (valid l);
      SetInvalidContacts (invalid l);
      ShowToast (ToastFileProcessed (length (valid l)) (length (invalid l)))].
Proof.
  intros H. unfold ingestRows.
  destruct (Z.eqb_spec (emailIndex (resolveColumns (headersOf rows))) (-1));
    [contradiction | reflexivity].
Qed.

Lemma ingestRows_unresolved (rows : list (list string)) :
  emailIndex (resolveColumns (headersOf rows)) = -1 ->
  ingestRows rows = [ShowToast ToastNoEmailColumn; SetIsProcessing false].
Proof. intros H. unfold ingestRows. now rewrite H. Qed.

Lemma runEffects_app (st : State) (es1 es2 : list Effect) :
  runEffects st (es1 ++ es2) = runEffects (runEffects st es1) es2.
Proof. apply fold_left_app. Qed.

Lemma runEffects_progress (st : State) (ps : list Q) :
  let st' := runEffects st (map SetUploadProgress ps) in
  selectedCampaign st' = selectedCampaign st /\ file st' = file st
  /\ contacts st' = contacts st /\ validContacts st' = validContacts st
  /\ invalidContacts st' = invalidContacts st
  /\ isProcessing st' = isProcessing st.
Proof.
  revert st. induction ps as [|p ps IH]; intros st; [simpl; tauto |].
  cbn [map]. change (runEffects st (SetUploadProgress p :: map SetUploadProgress ps))
    with (runEffects (applyEffect st (SetUploadProgress p)) (map SetUploadProgress ps)).
  specialize (IH (applyEffect st (SetUploadProgress p))). simpl in IH |- *.
  exact IH.
Qed.

(** The lists that a completed ingestion leaves in the state are the ones
    the row loop has built. *)
Lemma processFile_lists (st : State) (fileName text : string)
    (rows : list (list string)) :
  readRows fileName text = Some rows ->
  emailIndex (resolveColumns (headersOf rows)) <> -1 ->
  let l := runLoop (resolveColumns (headersOf rows)) (dataRowsOf rows) in
  let st' := runEffects st (processFile fileName text) in
  contacts st' = processedContacts l
  /\ validContacts st' = valid l
  /\ invalidContacts st' = invalid l.
Proof.
  intros Hrows Hres. unfold processFile. rewrite Hrows.
  rewrite (ingestRows_resolved rows Hres). cbv zeta.
  rewrite !runEffects_app.
  set (st1 := runEffects st [SetIsProcessing true; SetUploadProgress 0]).
  set (l := runLoop _ _).
  destruct (runEffects_progress st1 (reported l)) as (_ & _ & _ & _ & _ & _).
  set (st2 := runEffects st1 (map SetUploadProgress (reported l))).
  simpl. auto.
Qed.

Lemma not_elem_of_progress (e : Effect) (ps : list Q) :
  e ∈ map SetUploadProgress ps -> exists p, e = SetUploadProgress p.
Proof.
  change (map SetUploadProgress ps) with (SetUploadProgress <$> ps).
  rewrite list_elem_of_fmap. intros (p & -> & _). now exists p.
Qed.

(** Where an ingestion sets the valid or the invalid list, it sets the
    list that the row loop has built; an aborted ingestion sets neither. *)
Lemma processFile_sets_lists (fileName text : string) (v : list Contact) :
  SetValidContacts v ∈ processFile fileName text
  \/ SetInvalidContacts v ∈ processFile fileName text ->
  exists rows,
    readRows fileName text = Some rows
    /\ emailIndex (resolveColumns (headersOf rows)) <> -1
    /\ (SetValidContacts v ∈ processFile fileName text ->
        v = valid (runLoop (resolveColumns (headersOf rows)) (dataRowsOf rows)))
    /\ (SetInvalidContacts v ∈ processFile fileName text ->
        v = invalid (runLoop (resolveColumns (headersOf rows)) (dataRowsOf rows))).
Proof.
  unfold processFile.
  destruct (readRows fileName text) as [rows|].
  - destruct (Z.eq_dec (emailIndex (resolveColumns (headersOf rows))) (-1)) as [E|E].
    + rewrite (ingestRows_unresolved rows E). intros [H | H]; exfalso;
        repeat (apply elem_of_cons in H as [H | H]; [discriminate |]);
        now apply elem_of_nil in H.
    + intros _. exists rows. split; [reflexivity |]. split; [assumption |].
      rewrite (ingestRows_resolved rows E). cbv zeta.
      split; intros H;
        rewrite !elem_of_app in H;
        destruct H as [H | [[H | H] | H]];
        try (apply not_elem_of_progress in H as [p H]; discriminate);
        repeat (apply elem_of_cons in H as [H | H];
                [first [discriminate | now injection H] |]);
        now apply elem_of_nil in H.
  - intros [H | H]; exfalso;
      repeat (apply elem_of_cons in H as [H | H]; [discriminate |]);
      now apply elem_of_nil in H.
Qed.

(** ** Claims about the ingestion *)

(** C2. For every ingestion whose header resolves an email column, each
    non-blank data row either yields no candidate because its email cell
    is blank after trimming, or yields one candidate that goes to exactly
    one of the valid and the invalid list; hence
    |valid| + |invalid| + |rows skipped for a blank email| = |data rows|,
    and a row with a blank email contributes to neither list. *)
Theorem ingestion_partitions_data_rows (st : State) (fileName text : string)
    (rows : list (list string)) :
  readRows fileName text = Some rows ->
  emailIndex (resolveColumns (headersOf rows)) <> -1 ->
  let cm := resolveColumns (headersOf rows) in
  let dataRows := dataRowsOf rows in
  let st' := runEffects st (processFile fileName text) in
  validContacts st' = List.filter hasValidEmail (candidatesOf cm dataRows)
  /\ invalidContacts st'
     = List.filter (fun c => negb (hasValidEmail c)) (candidatesOf cm dataRows)
  /\ (length (validContacts st') + length (invalidContacts st')
      + length (List.filter (emailCellBlank cm) dataRows)
      = length dataRows)%nat
  /\ (forall row, row ∈ dataRows -> emailCellBlank cm row = true ->
        candidateOf cm row = None)
  /\ (forall c, c ∈ validContacts st' \/ c ∈ invalidContacts st' ->
        ~ (c ∈ validContacts st' /\ c ∈ invalidContacts st')
        /\ email c <> EmptyString
        /\ exists row, row ∈ dataRows /\ emailCellBlank cm row = false
                       /\ candidateOf cm row = Some c).
Proof.
  intros Hrows Hres cm dataRows st'.
  destruct (processFile_lists st fileName text rows Hrows Hres) as (_ & Hv & Hi).
  fold cm dataRows st' in Hv, Hi.
  rewrite (runLoop_spec cm dataRows) in Hv, Hi. cbn [valid invalid] in Hv, Hi.
  rewrite Hv, Hi.
  split; [reflexivity |]. split; [reflexivity |]. split.
  - pose proof (partition_count hasValidEmail (candidatesOf cm dataRows)).
    pose proof (candidates_count cm dataRows). lia.
  - split.
    + intros row _ Hb. unfold candidateOf. now rewrite Hb.
    + intros c Hc. rewrite !elem_of_List_filter in Hc |- *.
      assert (Hin : c ∈ candidatesOf cm dataRows) by tauto.
      split.
      * intros [[_ H1] [_ H2]]. rewrite H1 in H2. discriminate.
      * destruct (candidate_origin cm dataRows c Hin) as (row & Hrow & Hnb & Hc').
        split; [now apply (candidate_email_nonblank cm row) | eauto].
Qed.

(** C7. For every ingestion, the valid list and the invalid list it sets
    are each an in-order subsequence of the Contact candidates taken in
    the order of their data rows. *)
Theorem lists_preserve_row_order (fileName text : string) (v : list Contact) :
  SetValidContacts v ∈ processFile fileName text
  \/ SetInvalidContacts v ∈ processFile fileName text ->
  exists rows,
    readRows fileName text = Some rows
    /\ SetContacts
         (candidatesOf (resolveColumns (headersOf rows)) (dataRowsOf rows))
       ∈ processFile fileName text
    /\ sublist v (candidatesOf (resolveColumns (headersOf rows)) (dataRowsOf rows)).
Proof.
  intros H.
  destruct (processFile_sets_lists fileName text v H) as (rows & Hrows & Hres & Hv & Hi).
  exists rows. split; [assumption |]. split.
  - unfold processFile. rewrite Hrows, (ingestRows_resolved rows Hres). cbv zeta.
    rewrite runLoop_spec. cbn [processedContacts].
    rewrite !elem_of_app. right. left. right. apply elem_of_cons. now left.
  - rewrite runLoop_spec in Hv, Hi. cbn [valid invalid] in Hv, Hi.
    destruct H as [H | H]; [rewrite (Hv H) | rewrite (Hi H)]; apply filter_sublist.
Qed.

Lemma ingestion_partitions_data_rows_witness :
  let cm := resolveColumns (headersOf sampleRows) in
  let st' := runEffects initialState (processFile "contacts.csv" sampleText) in
  (length (validContacts st') + length (invalidContacts st')
   + length (List.filter (emailCellBlank cm) (dataRowsOf sampleRows))
   = length (dataRowsOf sampleRows))%nat.
Proof.
  assert (H1 : readRows "contacts.csv" sampleText = Some sampleRows)
    by reflexivity.
  assert (H2 : emailIndex (resolveColumns (headersOf sampleRows)) <> -1)
    by (vm_compute; discriminate).
  exact (proj1 (proj2 (proj2
    (ingestion_partitions_data_rows initialState "contacts.csv" sampleText
       sampleRows H1 H2)))).
Defined.

Lemma lists_preserve_row_order_witness :
  exists rows,
    readRows "contacts.csv" sampleText = Some rows
    /\ SetContacts
         (candidatesOf (resolveColumns (headersOf rows)) (dataRowsOf rows))
       ∈ processFile "contacts.csv" sampleText
    /\ sublist [mkContact "a@b.com" (Some "Alice") None None None]
         (candidatesOf (resolveColumns (headersOf rows)) (dataRowsOf rows)).
Proof.
  apply (lists_preserve_row_order "contacts.csv" sampleText).
  left. vm_compute.
  do 6 apply list_elem_of_further. apply list_elem_of_here.
Defined.

(** ** Column resolution *)

Lemma findIndexFrom_spec {A : Type} (p : A -> bool) (l : list A) :
  forall i : Z,
    (findIndexFrom p l i = -1 /\ forall x, x ∈ l -> p x = false)
    \/ (exists (k : nat) (x : A),
          findIndexFrom p l i = i + Z.of_nat k
          /\ l !! k = Some x /\ p x = true
          /\ forall (j : nat) (y : A), (j < k)%nat -> l !! j = Some y -> p y = false).
Proof.
  induction l as [|a l IH]; intros i; cbn [findIndexFrom].
  - left. split; [reflexivity |]. intros x Hx. now apply elem_of_nil in Hx.
  - destruct (p a) eqn:Ha.
    + right. exists 0%nat, a. repeat split; [lia | assumption | intros; lia].
    + destruct (IH (i + 1)) as [[E Hall] | (k & x & E & Hk & Hx & Hlt)].
      * left. split; [assumption |].
        intros x Hx. apply elem_of_cons in Hx as [-> | Hx]; auto.
      * right. exists (S k), x. repeat split; [lia | assumption | assumption |].
        intros [|j] y Hj Hy; cbn in Hy; [congruence | apply (Hlt j); [lia | assumption]].
Qed.

Lemma findIndex_spec {A : Type} (p : A -> bool) (l : list A) :
  (findIndex p l = -1 /\ forall x, x ∈ l -> p x = false)
  \/ (0 <= findIndex p l
      /\ exists x, l !! Z.to_nat (findIndex p l) = Some x /\ p x = true
         /\ forall (j : nat) (y : A),
              (j < Z.to_nat (findIndex p l))%nat -> l !! j = Some y -> p y = false).
Proof.
  unfold findIndex.
  destruct (findIndexFrom_spec p l 0) as [H | (k & x & E & Hk & Hx & Hlt)].
  - now left.
  - right. rewrite E, Z.add_0_l, Nat2Z.id. split; [lia | eauto].
Qed.

Lemma findIndex_none {A : Type} (p : A -> bool) (l : list A) :
  findIndex p l = -1 <-> forall x, x ∈ l -> p x = false.
Proof.
  destruct (findIndex_spec p l) as [[E Hall] | (Hpos & x & Hx & Hp & _)].
  - tauto.
  - split; [lia |]. intros Hall.
    apply list_elem_of_lookup_2 in Hx. rewrite (Hall x Hx) in Hp. discriminate.
Qed.

Lemma columnOf_findIndex (f : Field) (headers : list string) :
  columnOf (resolveColumns headers) f = findIndex (headerPredicate f) headers.
Proof. now destruct f. Qed.

Lemma headerPredicate_keywords (f : Field) (h : string) :
  headerPredicate f h = true
  <-> exists k, k ∈ keywords f /\ includes h k = true.
Proof.
  destruct f; cbn [headerPredicate keywords];
    unfold emailHeader, firstNameHeader, lastNameHeader, companyHeader, titleHeader;
    rewrite !orb_true_iff; split.
  all: try (intros H; decompose [or] H; eexists; (split; [|eassumption]);
            repeat first [apply list_elem_of_here | apply list_elem_of_further]).
  all: intros (k & Hk & Hinc);
    repeat (apply elem_of_cons in Hk as [-> | Hk]; [tauto |]);
    now apply elem_of_nil in Hk.
Qed.

Lemma headerMatches_predicate (f : Field) (cell : string) :
  headerMatches f cell <-> headerPredicate f (toLowerCase cell) = true.
Proof. unfold headerMatches. now rewrite headerPredicate_keywords. Qed.

(** C3. For every header row and every logical field, resolution yields
    the index of the leftmost header cell whose lower-cased text contains
    one of the keywords of the field, and -1 ("absent") when no cell does.
    Matching ignores letter case: header rows that agree once lower-cased
    resolve alike, and "EMAIL" resolves the email column as "email" does. *)
Theorem column_resolution_leftmost_match (header : list string) (f : Field) :
  let i := columnOf (columnMapOf header) f in
  ((i = -1 /\ forall cell, cell ∈ header -> ~ headerMatches f cell)
   \/ (0 <= i
       /\ exists cell, header !! Z.to_nat i = Some cell /\ headerMatches f cell
          /\ forall (j : nat) (cell' : string),
               (j < Z.to_nat i)%nat -> header !! j = Some cell' ->
               ~ headerMatches f cell'))
  /\ (forall rest, resolveColumns (headersOf (header :: rest)) = columnMapOf header)
  /\ (forall header',
        map toLowerCase header' = map toLowerCase header ->
        columnMapOf header' = columnMapOf header)
  /\ columnMapOf ["EMAIL"] = columnMapOf ["email"]
  /\ emailIndex (columnMapOf ["EMAIL"]) = 0.
Proof.
  cbv zeta. split; [| split; [| split; [| split]]].
  - unfold columnMapOf. rewrite columnOf_findIndex.
    destruct (findIndex_spec (headerPredicate f) (map toLowerCase header))
      as [[E Hall] | (Hpos & h & Hh & Hp & Hlt)].
    + left. split; [assumption |].
      intros cell Hcell. rewrite headerMatches_predicate.
      rewrite (Hall (toLowerCase cell)); [discriminate |].
      change (map toLowerCase header) with (toLowerCase <$> header).
      apply list_elem_of_fmap. eauto.
    + right. split; [assumption |].
      change (map toLowerCase header) with (toLowerCase <$> header) in *.
      rewrite list_lookup_fmap in Hh.
      destruct (header !! Z.to_nat (findIndex (headerPredicate f) (toLowerCase <$> header)))
        as [cell|] eqn:Hcell; [|discriminate].
      injection Hh as <-. exists cell. split; [reflexivity |].
      split; [now apply headerMatches_predicate |].
      intros j cell' Hj Hcell'. rewrite headerMatches_predicate.
      rewrite (Hlt j (toLowerCase cell') Hj); [discriminate |].
      now rewrite list_lookup_fmap, Hcell'.
  - reflexivity.
  - intros header' E. unfold columnMapOf. now rewrite E.
  - reflexivity.
  - reflexivity.
Qed.

(** C4. For every ingestion that reads a header row in which no cell
    matches the email keywords, the only notification is the missing
    email column one; no data row is processed and the contact, valid and
    invalid lists are left as they were. *)
Theorem missing_email_column_aborts (st : State) (fileName text : string)
    (rows : list (list string)) :
  readRows fileName text = Some rows ->
  (forall header cell,
     rows !! 0%nat = Some header -> cell ∈ header -> ~ headerMatches FEmail cell) ->
  processFile fileName text
  = [SetIsProcessing true; SetUploadProgress 0;
     ShowToast ToastNoEmailColumn; SetIsProcessing false;
     SetIsProcessing false; SetUploadProgress 0]
  /\ (let st' := runEffects st (processFile fileName text) in
      contacts st' = contacts st
      /\ validContacts st' = validContacts st
      /\ invalidContacts st' = invalidContacts st).
Proof.
  intros Hrows Hno.
  assert (E : emailIndex (resolveColumns (headersOf rows)) = -1).
  { change (emailIndex (resolveColumns (headersOf rows)))
      with (findIndex emailHeader (headersOf rows)).
    apply findIndex_none. intros h Hh. unfold headersOf in Hh.
    destruct (rows !! 0%nat) as [header|] eqn:Hhd; [|now apply elem_of_nil in Hh].
    change (map toLowerCase header) with (toLowerCase <$> header) in Hh.
    apply list_elem_of_fmap in Hh as (cell & -> & Hcell).
    specialize (Hno header cell eq_refl Hcell).
    rewrite headerMatches_predicate in Hno. cbn [headerPredicate] in Hno.
    now destruct (emailHeader (toLowerCase cell)). }
  assert (T : processFile fileName text
              = [SetIsProcessing true; SetUploadProgress 0;
                 ShowToast ToastNoEmailColumn; SetIsProcessing false;
                 SetIsProcessing false; SetUploadProgress 0]).
  { unfold processFile. now rewrite Hrows, (ingestRows_unresolved rows E). }
  split; [exact T |]. rewrite T. cbn. auto.
Qed.

Lemma missing_email_column_aborts_witness :
  processFile "contacts.csv" noEmailText
  = [SetIsProcessing true; SetUploadProgress 0;
     ShowToast ToastNoEmailColumn; SetIsProcessing false;
     SetIsProcessing false; SetUploadProgress 0]
  /\ (let st' := runEffects initialState (processFile "contacts.csv" noEmailText) in
      contacts st' = contacts initialState
      /\ validContacts st' = validContacts initialState
      /\ invalidContacts st' = invalidContacts initialState).
Proof.
  apply (missing_email_column_aborts initialState "contacts.csv" noEmailText
           noEmailRows).
  - reflexivity.
  - intros header cell Hhd Hcell.
    vm_compute in Hhd. injection Hhd as <-.
    rewrite headerMatches_predicate.
    repeat (apply elem_of_cons in Hcell as [-> | Hcell]; [vm_compute; discriminate |]).
    now apply elem_of_nil in Hcell.
Defined.

(** ** Rounding to binary64 is monotone *)

Module Binary64Facts.
Import Binary64.

Lemma pow2_pos (z : Z) : (0 < pow2 z)%Q.
Proof. apply Qpower_0_lt. reflexivity. Qed.

Lemma pow2_le (n m : Z) : n <= m -> (pow2 n <= pow2 m)%Q.
Proof. intros H. apply Qpower_le_compat_l; [assumption | discriminate]. Qed.

Lemma pow2_lt_inv (n m : Z) : (pow2 n < pow2 m)%Q -> n < m.
Proof. intros H. apply (Qpower_lt_compat_l_inv 2); [assumption | reflexivity]. Qed.

Lemma pow2_plus (n m : Z) : (pow2 (n + m) == pow2 n * pow2 m)%Q.
Proof. apply Qpower_plus. discriminate. Qed.

Lemma pow2_nonneg_Z (n : Z) : 0 <= n -> (pow2 n == inject_Z (2 ^ n))%Q.
Proof. intros H. unfold pow2. now rewrite Zpower_Qpower. Qed.

Lemma pow2_div (n m : Z) : (pow2 n / pow2 m == pow2 (n - m))%Q.
Proof.
  unfold Qdiv. replace (n - m) with (n + - m) by lia.
  rewrite pow2_plus. unfold pow2. now rewrite Qpower_opp.
Qed.

Lemma Qnum_pos (x : Q) : (0 < x)%Q -> 0 < Qnum x.
Proof. unfold Qlt. cbn. lia. Qed.

Lemma exponentOf_spec (x : Q) :
  (0 < x)%Q -> (pow2 (exponentOf x) <= x < pow2 (exponentOf x + 1))%Q.
Proof.
  intros Hx. pose proof (Qnum_pos x Hx) as Hp.
  unfold exponentOf.
  set (a := Z.log2 (Qnum x)). set (b := Z.log2 (Zpos (Qden x))).
  destruct (Z.log2_spec (Qnum x) Hp) as [Ha1 Ha2]. fold a in Ha1, Ha2.
  destruct (Z.log2_spec (Zpos (Qden x)) eq_refl) as [Hb1 Hb2]. fold b in Hb1, Hb2.
  assert (Ha0 : 0 <= a) by apply Z.log2_nonneg.
  assert (Hb0 : 0 <= b) by apply Z.log2_nonneg.
  assert (Ex : (x == inject_Z (Qnum x) / inject_Z (Zpos (Qden x)))%Q).
  { rewrite <- Qmake_Qdiv. now destruct x. }
  assert (Hq : (0 < inject_Z (Zpos (Qden x)))%Q) by reflexivity.
  destruct (Qle_bool (pow2 (a - b)) x) eqn:Hc.
  - apply Qle_bool_iff in Hc. split; [assumption |].
    rewrite Ex. apply Qlt_shift_div_r; [assumption |].
    apply Qlt_le_trans with (pow2 (Z.succ a)).
    + rewrite pow2_nonneg_Z by lia. rewrite <- Zlt_Qlt. assumption.
    + replace (Z.succ a) with ((a - b + 1) + b) by lia.
      rewrite pow2_plus. apply Qmult_le_l; [apply pow2_pos |].
      rewrite pow2_nonneg_Z by lia. rewrite <- Zle_Qle. assumption.
  - assert (Hlt : (x < pow2 (a - b))%Q).
    { apply Qnot_le_lt. intros H. apply Qle_bool_iff in H. congruence. }
    replace (a - b - 1 + 1) with (a - b) by lia. split; [|assumption].
    rewrite Ex. apply Qle_shift_div_l; [assumption |].
    apply Qle_trans with (pow2 a).
    + replace a with ((a - b - 1) + Z.succ b) at 2 by lia.
      rewrite pow2_plus. apply Qmult_le_l; [apply pow2_pos |].
      rewrite pow2_nonneg_Z by lia. rewrite <- Zle_Qle. lia.
    + rewrite pow2_nonneg_Z by lia. rewrite <- Zle_Qle. assumption.
Qed.

Lemma exponentOf_mono (x y : Q) :
  (0 < x)%Q -> (x <= y)%Q -> exponentOf x <= exponentOf y.
Proof.
  intros Hx Hxy.
  assert (Hy : (0 < y)%Q) by (eapply Qlt_le_trans; eassumption).
  destruct (exponentOf_spec x Hx) as [H1 _].
  destruct (exponentOf_spec y Hy) as [_ H2].
  assert (H : (pow2 (exponentOf x) < pow2 (exponentOf y + 1))%Q).
  { eapply Qle_lt_trans; [exact H1 |]. eapply Qle_lt_trans; eassumption. }
  apply pow2_lt_inv in H. lia.
Qed.

Lemma roundNearestEven_bounds (m : Q) :
  Qfloor m <= roundNearestEven m <= Qfloor m + 1.
Proof.
  unfold roundNearestEven.
  destruct (m - inject_Z (Qfloor m) ?= 1 # 2)%Q; [destruct (Z.even _) | |]; lia.
Qed.

Lemma roundNearestEven_mono (m1 m2 : Q) :
  (m1 <= m2)%Q -> roundNearestEven m1 <= roundNearestEven m2.
Proof.
  intros H. pose proof (Qfloor_resp_le m1 m2 H) as Hf.
  pose proof (roundNearestEven_bounds m1) as B1.
  pose proof (roundNearestEven_bounds m2) as B2.
  destruct (Z.eq_dec (Qfloor m1) (Qfloor m2)) as [E | E]; [|lia].
  unfold roundNearestEven in *. rewrite <- E in *.
  set (f := Qfloor m1) in *.
  assert (Hd : (m1 - inject_Z f <= m2 - inject_Z f)%Q).
  { apply Qplus_le_l with (inject_Z f). ring_simplify. exact H. }
  destruct (Qcompare_spec (m1 - inject_Z f) (1 # 2));
    destruct (Qcompare_spec (m2 - inject_Z f) (1 # 2));
    try (destruct (Z.even f)); try lia; exfalso; lra.
Qed.

Lemma roundNearestEven_Z (k : Z) : roundNearestEven (inject_Z k) = k.
Proof.
  unfold roundNearestEven. rewrite Qfloor_Z.
  assert (H : (inject_Z k - inject_Z k ?= 1 # 2)%Q = Lt).
  { apply (proj1 (Qlt_alt _ _)). lra. }
  now rewrite H.
Qed.

Lemma roundPositive_eq (x : Q) :
  (roundPositive x
   == inject_Z (roundNearestEven (x / pow2 (ulpExponent x))) * pow2 (ulpExponent x))%Q.
Proof. unfold roundPositive. apply Qred_correct. Qed.

Lemma scaled_le (x y : Q) (u : Z) : (x <= y)%Q -> (x / pow2 u <= y / pow2 u)%Q.
Proof.
  intros H. unfold Qdiv. apply Qmult_le_compat_r; [assumption |].
  apply Qinv_le_0_compat, Qlt_le_weak, pow2_pos.
Qed.

Lemma roundPositive_nonneg (x : Q) : (0 <= x)%Q -> (0 <= roundPositive x)%Q.
Proof.
  intros Hx. rewrite roundPositive_eq.
  apply Qmult_le_0_compat; [|apply Qlt_le_weak, pow2_pos].
  change 0%Q with (inject_Z 0). rewrite <- Zle_Qle.
  rewrite <- (roundNearestEven_Z 0). apply roundNearestEven_mono.
  apply Qle_shift_div_l; [apply pow2_pos |]. now rewrite Qmult_0_l.
Qed.

Lemma roundPositive_mono (x y : Q) :
  (0 < x)%Q -> (x <= y)%Q -> (roundPositive x <= roundPositive y)%Q.
Proof.
  intros Hx Hxy.
  assert (Hy : (0 < y)%Q) by (eapply Qlt_le_trans; eassumption).
  pose proof (exponentOf_mono x y Hx Hxy) as He.
  rewrite !roundPositive_eq.
  destruct (Z.eq_dec (ulpExponent x) (ulpExponent y)) as [E | E].
  - rewrite E. apply Qmult_le_compat_r; [|apply Qlt_le_weak, pow2_pos].
    rewrite <- Zle_Qle. apply roundNearestEven_mono. now apply scaled_le.
  - assert (Hu : ulpExponent x < ulpExponent y) by (unfold ulpExponent in *; lia).
    assert (Ey : exponentOf y = ulpExponent y + 52) by (unfold ulpExponent in *; lia).
    assert (Hex : exponentOf x + 1 <= exponentOf y) by (unfold ulpExponent in *; lia).
    destruct (exponentOf_spec x Hx) as [_ Hx2].
    destruct (exponentOf_spec y Hy) as [Hy1 _].
    apply Qle_trans with (pow2 (exponentOf y)).
    + set (k := exponentOf y - ulpExponent x).
      assert (Hk : 0 <= k) by (unfold k; lia).
      apply Qle_trans with (inject_Z (2 ^ k) * pow2 (ulpExponent x))%Q.
      * apply Qmult_le_compat_r; [|apply Qlt_le_weak, pow2_pos].
        rewrite <- Zle_Qle. rewrite <- (roundNearestEven_Z (2 ^ k)).
        apply roundNearestEven_mono.
        rewrite <- pow2_nonneg_Z by assumption. unfold k. rewrite <- pow2_div.
        apply scaled_le. apply Qlt_le_weak.
        eapply Qlt_le_trans; [exact Hx2 |]. now apply pow2_le.
      * rewrite <- pow2_nonneg_Z by assumption. rewrite <- pow2_plus.
        unfold k. replace (exponentOf y - ulpExponent x + ulpExponent x)
          with (exponentOf y) by lia. apply Qle_refl.
    + apply Qle_trans with (inject_Z (2 ^ 52) * pow2 (ulpExponent y))%Q.
      * rewrite <- pow2_nonneg_Z by lia. rewrite <- pow2_plus.
        rewrite Ey. replace (52 + ulpExponent y) with (ulpExponent y + 52) by lia.
        apply Qle_refl.
      * apply Qmult_le_compat_r; [|apply Qlt_le_weak, pow2_pos].
        rewrite <- Zle_Qle. rewrite <- (roundNearestEven_Z (2 ^ 52)) at 1.
        apply roundNearestEven_mono.
        rewrite <- pow2_nonneg_Z by lia.
        replace 52 with (exponentOf y - ulpExponent y) by lia.
        rewrite <- pow2_div. now apply scaled_le.
Qed.

Lemma round_proper (x y : Q) : (x == y)%Q -> round x = round y.
Proof.
  intros E. unfold round. rewrite <- E.
  destruct (0 ?= x)%Q; [reflexivity | |].
  - now rewrite (Qred_complete x y E).
  - assert (E' : (- x == - y)%Q) by now rewrite E.
    now rewrite (Qred_complete _ _ E').
Qed.

Lemma round_nonneg (x : Q) : (0 <= x)%Q -> (0 <= round x)%Q.
Proof.
  intros Hx. unfold round. destruct (0 ?= x)%Q eqn:C.
  - apply Qle_refl.
  - apply roundPositive_nonneg. now rewrite Qred_correct.
  - apply Qgt_alt in C. exfalso. exact (Qlt_irrefl _ (Qle_lt_trans _ _ _ Hx C)).
Qed.

Lemma round_mono (x y : Q) :
  (0 <= x)%Q -> (x <= y)%Q -> (round x <= round y)%Q.
Proof.
  intros Hx Hxy. unfold round at 1. destruct (0 ?= x)%Q eqn:Cx.
  - apply round_nonneg. eapply Qle_trans; eassumption.
  - apply Qlt_alt in Cx.
    assert (Hy : (0 < y)%Q) by (eapply Qlt_le_trans; eassumption).
    assert (Cy : (0 ?= y)%Q = Lt) by (apply (proj1 (Qlt_alt _ _)); assumption).
    unfold round. rewrite Cy.
    apply roundPositive_mono; rewrite ?Qred_correct; assumption.
  - apply Qgt_alt in Cx. exfalso. exact (Qlt_irrefl _ (Qle_lt_trans _ _ _ Hx Cx)).
Qed.

Lemma ofZ_mono (a b : Z) : 0 <= a -> a <= b -> (ofZ a <= ofZ b)%Q.
Proof.
  intros Ha Hab. unfold ofZ. apply round_mono.
  - change 0%Q with (inject_Z 0). now rewrite <- Zle_Qle.
  - now rewrite <- Zle_Qle.
Qed.

Lemma ofZ_pos (a : Z) : 1 <= a -> (1 <= ofZ a)%Q.
Proof. intros Ha. change 1%Q with (ofZ 1). apply ofZ_mono; lia. Qed.

Lemma div_mono (x y d : Q) :
  (0 <= x)%Q -> (x <= y)%Q -> (0 <= d)%Q -> (div x d <= div y d)%Q.
Proof.
  intros Hx Hxy Hd. unfold div, Qdiv.
  assert (Hi : (0 <= / d)%Q) by now apply Qinv_le_0_compat.
  apply round_mono.
  - now apply Qmult_le_0_compat.
  - now apply Qmult_le_compat_r.
Qed.

Lemma div_self (x : Q) : (0 < x)%Q -> div x x = 1%Q.
Proof.
  intros Hx. unfold div.
  assert (E : (x / x == 1)%Q).
  { unfold Qdiv. apply Qmult_inv_r. intros H. rewrite H in Hx. discriminate. }
  now rewrite (round_proper _ _ E).
Qed.

Lemma mul_mono (x y c : Q) :
  (0 <= x)%Q -> (x <= y)%Q -> (0 <= c)%Q -> (mul x c <= mul y c)%Q.
Proof.
  intros Hx Hxy Hc. unfold mul. apply round_mono.
  - now apply Qmult_le_0_compat.
  - now apply Qmult_le_compat_r.
Qed.

End Binary64Facts.

(** ** Progress reports *)

Lemma progressUpdates_app (es1 es2 : list Effect) :
  progressUpdates (es1 ++ es2) = progressUpdates es1 ++ progressUpdates es2.
Proof. apply omap_app. Qed.

Lemma progressUpdates_progress (ps : list Q) :
  progressUpdates (map SetUploadProgress ps) = ps.
Proof.
  induction ps as [|p ps IH]; [reflexivity |].
  cbn [map]. unfold progressUpdates in *. cbn [omap list_omap]. now rewrite IH.
Qed.

Lemma progressUpdates_resolved (fileName text : string) (rows : list (list string)) :
  readRows fileName text = Some rows ->
  emailIndex (resolveColumns (headersOf rows)) <> -1 ->
  progressUpdates (processFile fileName text)
  = 0%Q :: map (fun i => progressAt i (length (dataRowsOf rows)))
             (seq 0 (length (dataRowsOf rows)))
        ++ [0%Q].
Proof.
  intros Hrows Hres. unfold processFile.
  rewrite Hrows, (ingestRows_resolved rows Hres). cbv zeta.
  rewrite runLoop_spec. cbn [reported valid invalid processedContacts].
  rewrite !progressUpdates_app, progressUpdates_progress.
  unfold progressUpdates. cbn [omap list_omap app].
  now rewrite app_nil_r.
Qed.

Lemma progressAt_mono (i j total : nat) :
  (i <= j)%nat -> (progressAt i total <= progressAt j total)%Q.
Proof.
  intros Hij. unfold progressAt.
  apply Binary64Facts.mul_mono; [| |discriminate].
  - apply Binary64Facts.round_nonneg. unfold Qdiv.
    apply Qmult_le_0_compat; [|apply Qinv_le_0_compat];
      apply Binary64Facts.round_nonneg;
      change 0%Q with (inject_Z 0); rewrite <- Zle_Qle; lia.
  - apply Binary64Facts.div_mono.
    + apply Binary64Facts.round_nonneg.
      change 0%Q with (inject_Z 0). rewrite <- Zle_Qle. lia.
    + apply Binary64Facts.ofZ_mono; lia.
    + apply Binary64Facts.round_nonneg.
      change 0%Q with (inject_Z 0). rewrite <- Zle_Qle. lia.
Qed.

Lemma progressAt_last (total : nat) :
  (1 <= total)%nat -> progressAt (total - 1) total = 100%Q.
Proof.
  intros Hn. unfold progressAt.
  replace (Z.of_nat (total - 1) + 1) with (Z.of_nat total) by lia.
  rewrite Binary64Facts.div_self; [reflexivity |].
  apply Qlt_le_trans with 1%Q; [reflexivity |].
  apply Binary64Facts.ofZ_pos. lia.
Qed.

Lemma perRow_lookup (total i : nat) :
  (i < total)%nat ->
  map (fun k => progressAt k total) (seq 0 total) !! i = Some (progressAt i total).
Proof.
  intros Hi.
  change (map (fun k => progressAt k total) (seq 0 total))
    with ((fun k => progressAt k total) <$> seq 0 total).
  now rewrite list_lookup_fmap, lookup_seq_lt.
Qed.

Lemma perRow_lookup_inv (total i : nat) (p : Q) :
  map (fun k => progressAt k total) (seq 0 total) !! i = Some p ->
  (i < total)%nat /\ p = progressAt i total.
Proof.
  intros H. assert (Hi : (i < total)%nat).
  { apply lookup_lt_Some in H. now rewrite length_map, length_seq in H. }
  rewrite (perRow_lookup total i Hi) in H. split; [assumption | congruence].
Qed.

(** C6, as amended. For every ingestion whose header resolves an email
    column, over n >= 1 non-blank data rows: between the reset to 0 that
    opens the ingestion and the reset to 0 that closes it, exactly one
    progress value is reported per data row (rows skipped for a blank
    email included), the value for the row at index i is ((i+1)/n) * 100
    as binary64 arithmetic gives it, the per-row values never decrease,
    and the last of them is exactly 100. *)
Theorem progress_per_row_when_email_resolved (fileName text : string) :
  (forall rows, readRows fileName text = Some rows ->
     emailIndex (resolveColumns (headersOf rows)) <> -1) ->
  reportsProgressPerRow fileName text.
Proof.
  intros Hres rows Hrows n Hn.
  exists (map (fun i => progressAt i n) (seq 0 n)).
  split; [exact (progressUpdates_resolved fileName text rows Hrows (Hres rows Hrows)) |].
  split; [now rewrite length_map, length_seq |].
  split; [| split].
  - intros i Hi. exists (progressAt i n).
    split; [now apply perRow_lookup | reflexivity].
  - intros i j p q Hij Hp Hq.
    apply perRow_lookup_inv in Hp as [_ ->].
    apply perRow_lookup_inv in Hq as [_ ->].
    now apply progressAt_mono.
  - exists (progressAt (n - 1) n).
    split; [| rewrite progressAt_last by lia; reflexivity].
    rewrite last_lookup, length_map, length_seq.
    replace (Nat.pred n) with (n - 1)%nat by lia.
    apply perRow_lookup. lia.
Qed.

Lemma progress_per_row_when_email_resolved_witness :
  reportsProgressPerRow "contacts.csv" sampleText.
Proof.
  apply progress_per_row_when_email_resolved.
  intros rows Hrows. vm_compute in Hrows. injection Hrows as <-.
  vm_compute. discriminate.
Defined.

(** C6, as stated, fails on an ingestion whose header row has no email
    column: it runs over one non-blank data row and reports no per-row
    value at all, the only progress updates being the two resets to 0. *)
Lemma progress_not_reported_without_email_column :
  readRows "contacts.csv" noEmailText = Some noEmailRows
  /\ length (dataRowsOf noEmailRows) = 1%nat
  /\ progressUpdates (processFile "contacts.csv" noEmailText) = [0%Q; 0%Q]
  /\ ~ reportsProgressPerRow "contacts.csv" noEmailText.
Proof.
  split; [reflexivity |]. split; [reflexivity |]. split; [reflexivity |].
  intros H.
  assert (Hn : (1 <= length (dataRowsOf noEmailRows))%nat) by (vm_compute; lia).
  destruct (H noEmailRows eq_refl Hn) as (perRow & Hup & Hlen & _).
  change (progressUpdates (processFile "contacts.csv" noEmailText))
    with [0%Q; 0%Q] in Hup.
  change (length (dataRowsOf noEmailRows)) with 1%nat in Hlen.
  destruct perRow as [|p [|p' perRow]]; cbn in Hup, Hlen; try discriminate; lia.
Qed.

(** ** Cell normalization *)

Lemma dropLast_lastUnit (s : string) (q : ascii) :
  lastUnit s = Some q -> dropLast s +:+ String q EmptyString = s.
Proof.
  induction s as [|c s IH]; [discriminate |].
  destruct s as [|c' s'].
  - cbn. now intros [= ->].
  - intros H. change (lastUnit (String c (String c' s')))
      with (lastUnit (String c' s')) in H.
    change (dropLast (String c (String c' s')))
      with (String c (dropLast (String c' s'))).
    rewrite append_cons. f_equal. now apply IH.
Qed.

Lemma trailing_quote_split (rest : string) :
  exists suf : string,
    rest = match lastUnit rest with
           | Some c => if isQuote c then dropLast rest else rest
           | None => rest
           end +:+ suf
    /\ String.length suf = (if endsWithQuote rest then 1 else 0)%nat.
Proof.
  unfold endsWithQuote.
  destruct (lastUnit rest) as [q|] eqn:Hlast.
  - destruct (isQuote q) eqn:Hq.
    + exists (String q EmptyString).
      now rewrite (dropLast_lastUnit rest q Hlast).
    + exists EmptyString. now rewrite append_empty_r.
  - exists EmptyString. now rewrite append_empty_r.
Qed.

(** C5, as amended. For every cell, normalization trims white space and
    then removes at most one quote character from the start and at most
    one from the end of the trimmed cell, each whenever it is present and
    independently of the other end: a leading quote is removed also when
    no quote closes the cell, and the two quotes need not be equal. *)
Theorem normalizeCell_strips_each_end (cell : string) :
  exists pre suf : string,
    trim cell = pre +:+ normalizeCell cell +:+ suf
    /\ String.length pre = (if startsWithQuote (trim cell) then 1 else 0)%nat
    /\ String.length suf
       = (if endsWithQuote (normalizeCell cell +:+ suf) then 1 else 0)%nat.
Proof.
  unfold normalizeCell, stripQuotes.
  destruct (trim cell) as [|c t'].
  - exists EmptyString, EmptyString. now cbn.
  - cbn [startsWithQuote]. destruct (isQuote c).
    + destruct (trailing_quote_split t') as (suf & E & Hlen).
      exists (String c EmptyString), suf.
      rewrite append_cons, append_empty_l, <- E. auto.
    + destruct (trailing_quote_split (String c t')) as (suf & E & Hlen).
      exists EmptyString, suf. rewrite append_empty_l, <- E. auto.
Qed.

(** C5, as stated, fails on a cell that opens with a quote and does not
    close with one: the opening quote is removed all the same. *)
Lemma lone_leading_quote_is_stripped :
  normalizeCell unbalancedCell = "abc"
  /\ stripMatchingPair (trim unbalancedCell) = unbalancedCell
  /\ ~ stripsMatchingPairOnly unbalancedCell.
Proof.
  split; [reflexivity |]. split; [reflexivity |].
  unfold stripsMatchingPairOnly. vm_compute. discriminate.
Qed.

(** ** Rows shorter than a column index *)

Lemma cellAt_past_end (row : list string) (i : Z) :
  Z.of_nat (length row) <= i -> cellAt row i = None.
Proof.
  intros H. unfold cellAt. destruct (i <? 0); [reflexivity |].
  apply lookup_ge_None. lia.
Qed.

Lemma cellAt_padTo (row : list string) (i : Z) :
  Z.of_nat (length row) <= i -> cellAt (padTo i row) i = Some EmptyString.
Proof.
  intros H. unfold cellAt, padTo.
  destruct (Z.ltb_spec i 0); [lia |].
  rewrite lookup_app_r by lia.
  apply lookup_replicate_2. lia.
Qed.

(** C10. For every data row, extraction never fails. A row with no cell
    at the email column is skipped as a row whose email cell is blank is:
    the progress value is reported and nothing is appended. A column of
    an optional field that lies past the end of the row leaves that field
    of the candidate without a value. *)
Theorem short_rows_are_skipped_or_partial (cm : ColumnMap) (total index : nat)
    (acc : Loop) (row : list string) :
  (Z.of_nat (length row) <= emailIndex cm ->
     processRow cm total acc row index
     = mkLoop (reported acc ++ [progressAt index total])
              (processedContacts acc) (valid acc) (invalid acc)
     /\ emailCellBlank cm (padTo (emailIndex cm) row) = true
     /\ processRow cm total acc row index
        = processRow cm total acc (padTo (emailIndex cm) row) index)
  /\ (forall i, Z.of_nat (length row) <= i -> optionalField row i = None)
  /\ (forall c,
        processedContacts (processRow cm total acc row index)
        = processedContacts acc ++ [c] ->
        (Z.of_nat (length row) <= firstNameIndex cm -> first_name c = None)
        /\ (Z.of_nat (length row) <= lastNameIndex cm -> last_name c = None)
        /\ (Z.of_nat (length row) <= companyIndex cm -> company c = None)
        /\ (Z.of_nat (length row) <= titleIndex cm -> title c = None)).
Proof.
  assert (Hopt : forall i, Z.of_nat (length row) <= i -> optionalField row i = None).
  { intros i Hi. unfold optionalField. rewrite (cellAt_past_end row i Hi).
    now destruct (0 <=? i). }
  split; [| split; [exact Hopt |]].
  - intros Hshort.
    assert (E1 : processRow cm total acc row index
                 = mkLoop (reported acc ++ [progressAt index total])
                     (processedContacts acc) (valid acc) (invalid acc)).
    { unfold processRow. now rewrite (cellAt_past_end row _ Hshort). }
    split; [exact E1 |]. split.
    + unfold emailCellBlank. now rewrite (cellAt_padTo row _ Hshort).
    + rewrite E1. unfold processRow. now rewrite (cellAt_padTo row _ Hshort).
  - intros c Hc. rewrite processRow_candidate in Hc.
    unfold candidateOf in Hc.
    destruct (emailCellBlank cm row).
    + cbn [processedContacts] in Hc.
      rewrite <- (app_nil_r (processedContacts acc)) in Hc at 1.
      apply app_inv_head in Hc. discriminate.
    + match type of Hc with context [hasValidEmail ?k] =>
        destruct (hasValidEmail k) end;
        cbn [processedContacts] in Hc; apply app_inv_head in Hc;
        injection Hc as <-; cbn [first_name last_name company title];
        repeat split; apply Hopt.
Qed.

Lemma short_rows_are_skipped_or_partial_witness :
  processRow wideColumns 1 emptyLoop shortRow 0
  = mkLoop (reported emptyLoop ++ [progressAt 0 1])
      (processedContacts emptyLoop) (valid emptyLoop) (invalid emptyLoop)
  /\ emailCellBlank wideColumns (padTo (emailIndex wideColumns) shortRow) = true
  /\ processRow wideColumns 1 emptyLoop shortRow 0
     = processRow wideColumns 1 emptyLoop
         (padTo (emailIndex wideColumns) shortRow) 0.
Proof.
  apply (short_rows_are_skipped_or_partial wideColumns 1 0 emptyLoop shortRow).
  vm_compute. discriminate.
Defined.

(** ** Submission *)

Lemma uploadContacts_cases (replies : Replies) (st : State) (db : Store) :
  let rows := contactsToInsert st in
  let fields : gmap string Json :=
    {[ "total_contacts" := JNumber (Z.of_nat (length (validContacts st))) ]} in
  ((selectedCampaign st = EmptyString \/ validContacts st = [])
   /\ uploadContacts replies st db = ([ShowToast ToastUploadRefused], db))
  \/ (selectedCampaign st <> EmptyString /\ validContacts st <> []
      /\ insertContacts (insertError replies) rows db = None
      /\ uploadContacts replies st db
         = ([SetIsProcessing true; InsertContacts rows;
             ShowToast ToastUploadFailed; SetIsProcessing false], db))
  \/ (selectedCampaign st <> EmptyString /\ validContacts st <> []
      /\ exists db1,
           insertContacts (insertError replies) rows db = Some db1
           /\ updateError replies = true
           /\ uploadContacts replies st db
              = ([SetIsProcessing true; InsertContacts rows;
                  UpdateCampaign (selectedCampaign st) fields;
                  ShowToast ToastUploadFailed; SetIsProcessing false], db1))
  \/ (selectedCampaign st <> EmptyString /\ validContacts st <> []
      /\ exists db1,
           insertContacts (insertError replies) rows db = Some db1
           /\ updateError replies = false
           /\ uploadContacts replies st db
              = ([SetIsProcessing true; InsertContacts rows;
                  UpdateCampaign (selectedCampaign st) fields;
                  ShowToast (ToastUploadSuccess (length (validContacts st)));
                  SetFile None; SetContacts []; SetValidContacts [];
                  SetInvalidContacts []; SetSelectedCampaign "";
                  SetIsProcessing false],
                 writeCampaign (selectedCampaign st) fields db1)).
Proof.
  cbv zeta. unfold uploadContacts.
  destruct (selectedCampaign st) as [|a sel] eqn:Hsel; cbn [isEmpty orb].
  { left. auto. }
  destruct (validContacts st) as [|c v] eqn:Hv; cbn [length Nat.eqb].
  { left. auto. }
  right.
  destruct (insertContacts (insertError replies) (contactsToInsert st) db)
    as [db1|].
  - right. unfold updateCampaign. destruct (updateError replies).
    + left. split; [discriminate |]. split; [discriminate |]. now exists db1.
    + right. split; [discriminate |]. split; [discriminate |]. now exists db1.
  - left. split; [discriminate |]. split; [discriminate |]. auto.
Qed.

Ltac upload_member H :=
  repeat first
    [ apply elem_of_nil in H; contradiction
    | apply elem_of_cons in H as [H | H]; [try discriminate |] ].

Lemma not_succeeded_refused : ~ uploadSucceeded [ShowToast ToastUploadRefused].
Proof. intros (n & H). upload_member H. Qed.

Lemma not_succeeded_failed (rows : list (gmap string Json)) :
  ~ uploadSucceeded
      [SetIsProcessing true; InsertContacts rows;
       ShowToast ToastUploadFailed; SetIsProcessing false].
Proof. intros (n & H). upload_member H. Qed.

Lemma not_succeeded_update_failed (rows : list (gmap string Json))
    (id : string) (fields : gmap string Json) :
  ~ uploadSucceeded
      [SetIsProcessing true; InsertContacts rows; UpdateCampaign id fields;
       ShowToast ToastUploadFailed; SetIsProcessing false].
Proof. intros (n & H). upload_member H. Qed.

Lemma uploadContacts_insert (replies : Replies) (st : State) (db : Store)
    (rows : list (gmap string Json)) :
  InsertContacts rows ∈ (uploadContacts replies st db).1 ->
  rows = contactsToInsert st.
Proof.
  destruct (uploadContacts_cases replies st db)
    as [[_ E] | [(_ & _ & _ & E) | [(_ & _ & db1 & _ & _ & E)
                                   | (_ & _ & db1 & _ & _ & E)]]];
    rewrite E; cbn [fst]; intros H; upload_member H; now injection H.
Qed.

Lemma contactToInsert_fields (campaign : string) (contact : Contact) :
  let row := contactToInsert campaign contact in
  dom row = insertKeys
  /\ row !! "campaign_id" = Some (JString campaign)
  /\ row !! "email" = Some (JString (email contact))
  /\ row !! "first_name" = Some (orNull (first_name contact))
  /\ row !! "last_name" = Some (orNull (last_name contact))
  /\ row !! "company" = Some (orNull (company contact))
  /\ row !! "title" = Some (orNull (title contact)).
Proof.
  cbv zeta. unfold contactToInsert, insertKeys. split.
  - rewrite !dom_insert_L, dom_empty_L. set_solver.
  - repeat split; simplify_map_eq; reflexivity.
Qed.

(** C8. Every row handed to the insert on [contacts] has exactly the keys
    campaign_id, email, first_name, last_name, company and title;
    campaign_id is the selected campaign, email the address of the
    contact, and each of the four other keys is present with the value
    null whenever the contact has no value for it. *)
Theorem inserted_rows_carry_explicit_nulls (replies : Replies) (st : State)
    (db : Store) (rows : list (gmap string Json)) (row : gmap string Json) :
  InsertContacts rows ∈ (uploadContacts replies st db).1 ->
  row ∈ rows ->
  exists contact,
    contact ∈ validContacts st
    /\ dom row = insertKeys
    /\ row !! "campaign_id" = Some (JString (selectedCampaign st))
    /\ row !! "email" = Some (JString (email contact))
    /\ (first_name contact = None -> row !! "first_name" = Some JNull)
    /\ (last_name contact = None -> row !! "last_name" = Some JNull)
    /\ (company contact = None -> row !! "company" = Some JNull)
    /\ (title contact = None -> row !! "title" = Some JNull)
    /\ (forall s, s <> EmptyString ->
          (first_name contact = Some s -> row !! "first_name" = Some (JString s))
          /\ (last_name contact = Some s -> row !! "last_name" = Some (JString s))
          /\ (company contact = Some s -> row !! "company" = Some (JString s))
          /\ (title contact = Some s -> row !! "title" = Some (JString s))).
Proof.
  intros Hins Hrow. apply uploadContacts_insert in Hins. subst rows.
  unfold contactsToInsert in Hrow.
  change (map ?f ?l) with (f <$> l) in Hrow.
  apply list_elem_of_fmap in Hrow as (contact & -> & Hc).
  exists contact. split; [assumption |].
  destruct (contactToInsert_fields (selectedCampaign st) contact)
    as (Hdom & Hid & Hem & Hf & Hl & Hco & Ht).
  split; [assumption |]. split; [assumption |]. split; [assumption |].
  rewrite Hf, Hl, Hco, Ht.
  split; [now intros -> |]. split; [now intros -> |].
  split; [now intros -> |]. split; [now intros -> |].
  intros s Hs. apply isEmpty_false in Hs.
  repeat split; intros ->; cbn [orNull]; now rewrite Hs.
Qed.

Lemma inserted_rows_carry_explicit_nulls_witness :
  exists contact,
    contact ∈ validContacts secondBatch
    /\ dom (contactToInsert "c1" (mkContact "e@f.net" None None None None))
       = insertKeys
    /\ contactToInsert "c1" (mkContact "e@f.net" None None None None)
         !! "campaign_id" = Some (JString (selectedCampaign secondBatch)).
Proof.
  destruct (inserted_rows_carry_explicit_nulls noErrors secondBatch sampleStore
              (contactsToInsert secondBatch)
              (contactToInsert "c1" (mkContact "e@f.net" None None None None)))
    as (contact & H1 & H2 & H3 & _).
  - vm_compute. apply list_elem_of_further, list_elem_of_here.
  - apply list_elem_of_here.
  - exists contact. auto.
Defined.

Lemma contactKey_contactToInsert (campaign : string) (contact : Contact) :
  contactKey (contactToInsert campaign contact) = Some (campaign, email contact).
Proof.
  destruct (contactToInsert_fields campaign contact) as (_ & Hid & Hem & _).
  unfold contactKey. now rewrite Hid, Hem.
Qed.

Lemma insertContacts_campaigns (error : bool) (rows : list (gmap string Json))
    (db db1 : Store) :
  insertContacts error rows db = Some db1 -> campaigns db1 = campaigns db.
Proof.
  unfold insertContacts. destruct error; [discriminate |].
  destruct (rowsAdmissible _ _ _); [|discriminate].
  now intros [= <-].
Qed.

Lemma insertContacts_campaign_exists (error : bool) (campaign : string)
    (contact : Contact) (rows : list (gmap string Json)) (db db1 : Store) :
  insertContacts error (contactToInsert campaign contact :: rows) db = Some db1 ->
  is_Some (campaigns db !! campaign).
Proof.
  unfold insertContacts. destruct error; [discriminate |].
  destruct (rowsAdmissible _ _ _) eqn:Hadm; [|discriminate]. intros _.
  cbn [rowsAdmissible] in Hadm. apply andb_prop in Hadm as [Hkey _].
  unfold keyAdmissible in Hkey. rewrite contactKey_contactToInsert in Hkey.
  apply andb_prop in Hkey as [Hex _]. now apply bool_decide_eq_true in Hex.
Qed.

Lemma upload_success_inv (replies : Replies) (st : State) (db db' : Store)
    (es : list Effect) :
  uploadContacts replies st db = (es, db') -> uploadSucceeded es ->
  validContacts st <> []
  /\ exists db1,
       insertContacts (insertError replies) (contactsToInsert st) db = Some db1
       /\ db' = writeCampaign (selectedCampaign st)
                  {[ "total_contacts" :=
                       JNumber (Z.of_nat (length (validContacts st))) ]} db1
       /\ UpdateCampaign (selectedCampaign st)
            {[ "total_contacts" :=
                 JNumber (Z.of_nat (length (validContacts st))) ]} ∈ es.
Proof.
  intros Hup Hok.
  destruct (uploadContacts_cases replies st db)
    as [[_ E] | [(_ & _ & _ & E) | [(_ & _ & db1 & _ & _ & E)
                                   | (_ & Hne & db1 & Hins & _ & E)]]];
    rewrite E in Hup; injection Hup as <- <-.
  - now apply not_succeeded_refused in Hok.
  - now apply not_succeeded_failed in Hok.
  - now apply not_succeeded_update_failed in Hok.
  - split; [assumption |]. exists db1. split; [assumption |].
    split; [reflexivity |].
    do 2 apply list_elem_of_further. apply list_elem_of_here.
Qed.

Lemma upload_sets_total (replies : Replies) (st : State) (db db' : Store)
    (es : list Effect) :
  uploadContacts replies st db = (es, db') -> uploadSucceeded es ->
  total_contacts <$> campaigns db' !! selectedCampaign st
  = Some (Z.of_nat (length (validContacts st))).
Proof.
  intros Hup Hok.
  destruct (upload_success_inv replies st db db' es Hup Hok)
    as (Hne & db1 & Hins & -> & _).
  unfold writeCampaign. cbn [campaigns].
  rewrite lookup_alter_eq, (insertContacts_campaigns _ _ _ _ Hins).
  unfold contactsToInsert in Hins.
  destruct (validContacts st) as [|c v]; [congruence |].
  cbn [map] in Hins.
  destruct (insertContacts_campaign_exists _ _ _ _ _ _ Hins) as [camp ->].
  cbn. unfold patchCampaign. now rewrite lookup_singleton_eq.
Qed.

(** C9. After a successful submission the total_contacts of the selected
    campaign is the number of valid contacts of that batch, whatever it
    was before; after two successful submissions for the same campaign it
    is the size of the second batch, not the sum of the two. *)
Theorem total_contacts_is_overwritten (replies1 replies2 : Replies)
    (st1 st2 : State) (db0 db1 db2 : Store) (es1 es2 : list Effect) :
  uploadContacts replies1 st1 db0 = (es1, db1) -> uploadSucceeded es1 ->
  uploadContacts replies2 st2 db1 = (es2, db2) -> uploadSucceeded es2 ->
  selectedCampaign st2 = selectedCampaign st1 ->
  total_contacts <$> campaigns db1 !! selectedCampaign st1
  = Some (Z.of_nat (length (validContacts st1)))
  /\ total_contacts <$> campaigns db2 !! selectedCampaign st1
     = Some (Z.of_nat (length (validContacts st2)))
  /\ total_contacts <$> campaigns db2 !! selectedCampaign st1
     <> Some (Z.of_nat (length (validContacts st1))
              + Z.of_nat (length (validContacts st2)))
  /\ UpdateCampaign (selectedCampaign st1)
       {[ "total_contacts" := JNumber (Z.of_nat (length (validContacts st2))) ]}
     ∈ es2.
Proof.
  intros Hup1 Hok1 Hup2 Hok2 Hsame.
  pose proof (upload_sets_total replies1 st1 db0 db1 es1 Hup1 Hok1) as H1.
  pose proof (upload_sets_total replies2 st2 db1 db2 es2 Hup2 Hok2) as H2.
  destruct (upload_success_inv replies1 st1 db0 db1 es1 Hup1 Hok1) as (Hne & _).
  destruct (upload_success_inv replies2 st2 db1 db2 es2 Hup2 Hok2)
    as (_ & _ & _ & _ & Hev).
  rewrite Hsame in H2, Hev.
  split; [exact H1 |]. split; [exact H2 |]. split; [| exact Hev].
  rewrite H2. intros [= E].
  destruct (validContacts st1); [congruence | cbn [length] in E; lia].
Qed.

Lemma total_contacts_is_overwritten_witness :
  total_contacts
    <$> campaigns (uploadContacts noErrors secondBatch
                     (uploadContacts noErrors firstBatch sampleStore).2).2 !! "c1"
  = Some 1.
Proof.
  pose proof (total_contacts_is_overwritten noErrors noErrors
                firstBatch secondBatch sampleStore
                (uploadContacts noErrors firstBatch sampleStore).2
                (uploadContacts noErrors secondBatch
                   (uploadContacts noErrors firstBatch sampleStore).2).2
                (uploadContacts noErrors firstBatch sampleStore).1
                (uploadContacts noErrors secondBatch
                   (uploadContacts noErrors firstBatch sampleStore).2).1)
    as H.
  apply H.
  - vm_compute. reflexivity.
  - exists 2%nat. vm_compute. do 3 apply list_elem_of_further. apply list_elem_of_here.
  - vm_compute. reflexivity.
  - exists 1%nat. vm_compute. do 3 apply list_elem_of_further. apply list_elem_of_here.
  - reflexivity.
Defined.

(** ** Scenarios of the specification, evaluated *)

Example validateEmail_edge_cases :
  map validateEmail
    ["a@b.com"; "a@b..c"; "a@[1.2.3.4]"; "a@b.c.d";
     "not-an-email"; "a@b"; "a b@c.d"; "a@b@c.d"; "a@.b"; "@b.c"]
  = [true; true; true; true; false; false; false; false; false; false].
Proof. reflexivity. Qed.

Example normalizeCell_examples :
  map normalizeCell ["  Alice "; "'Acme'"; String "034" "abc"; "it's"; "'a' "]
  = ["Alice"; "Acme"; "abc"; "it's"; "a"].
Proof. reflexivity. Qed.

Example scenario_skipped_blank_email :
  let st :=
    runEffects initialState
      (processFile "contacts.csv"
         (lines ["email,first_name"; "a@b.com,Alice"; ",Bob"])) in
  validContacts st = [mkContact "a@b.com" (Some "Alice") None None None]
  /\ invalidContacts st = [].
Proof. split; reflexivity. Qed.

Example scenario_invalid_address :
  let st :=
    runEffects initialState
      (processFile "contacts.csv" (lines ["Email,Company"; "not-an-email,Acme"])) in
  validContacts st = []
  /\ invalidContacts st = [mkContact "not-an-email" None None (Some "Acme") None].
Proof. split; reflexivity. Qed.

Example scenario_missing_email_column :
  processFile "contacts.csv" (lines ["name,phone"])
  = [SetIsProcessing true; SetUploadProgress 0;
     ShowToast ToastNoEmailColumn; SetIsProcessing false;
     SetIsProcessing false; SetUploadProgress 0].
Proof. reflexivity. Qed.

Example scenario_spreadsheet_rejected :
  processFile "contacts.xlsx" (lines ["email"; "a@b.com"])
  = [SetIsProcessing true; SetUploadProgress 0;
     ShowToast ToastXlsxSupport; SetIsProcessing false;
     SetIsProcessing false; SetUploadProgress 0].
Proof. reflexivity. Qed.

Example scenario_progress_of_four_rows :
  map Qred
    (progressUpdates
       (processFile "contacts.csv"
          (lines ["email"; "a@b.com"; "c@d.org"; "x"; "e@f.net"])))
  = [0; 25; 50; 75; 100; 0]%Q.
Proof. reflexivity. Qed.

(** 33.33333333333333 and 7.000000000000001, the binary64 results of
    [(1 / 3) * 100] and [(14 / 200) * 100]. *)
Example progress_values_are_rounded :
  progressAt 0 3 = (2345624805922133 # 70368744177664)%Q
  /\ progressAt 13 200 = (7881299347898369 # 1125899906842624)%Q
  /\ ~ (progressAt 0 3 == 100 # 3)%Q
  /\ ~ (progressAt 13 200 == 7)%Q.
Proof. repeat split; vm_compute; congruence. Qed.

Example scenario_update_error_keeps_rows :
  uploadContacts updateRejected secondBatch sampleStore
  = ([SetIsProcessing true; InsertContacts (contactsToInsert secondBatch);
      UpdateCampaign "c1" {[ "total_contacts" := JNumber 1 ]};
      ShowToast ToastUploadFailed; SetIsProcessing false],
     mkStore (campaigns sampleStore) (contactsToInsert secondBatch)).
Proof. vm_compute. reflexivity. Qed.

Example scenario_duplicate_upload_fails :
  let db := (uploadContacts noErrors secondBatch sampleStore).2 in
  (uploadContacts noErrors secondBatch db).1
  = [SetIsProcessing true; InsertContacts (contactsToInsert secondBatch);
     ShowToast ToastUploadFailed; SetIsProcessing false]
  /\ (uploadContacts noErrors secondBatch db).2 = db.
Proof. split; vm_compute; reflexivity. Qed.

(** * Further properties of the component *)

(** ** Splitting and trimming *)

Lemma split_nonempty (sep : ascii) (s : string) : split sep s <> [].
Proof.
  destruct s as [|c s]; cbn [split]; [discriminate |].
  destruct (Ascii.eqb c sep); [discriminate |].
  destruct (split sep s); discriminate.
Qed.

Lemma split_cons_other (sep c : ascii) (s : string) :
  Ascii.eqb c sep = false ->
  exists piece rest,
    split sep s = piece :: rest /\ split sep (String c s) = String c piece :: rest.
Proof.
  intros Hc. cbn [split]. rewrite Hc.
  destruct (split sep s) as [|piece rest] eqn:E; [now apply split_nonempty in E |].
  now exists piece, rest.
Qed.

Lemma split_app_sep (sep : ascii) (a b : string) :
  split sep (a +:+ String sep b) = split sep a ++ split sep b.
Proof.
  induction a as [|c a IH].
  - rewrite append_empty_l. cbn [split]. now rewrite Ascii.eqb_refl.
  - rewrite append_cons. cbn [split].
    destruct (Ascii.eqb c sep); [now rewrite IH |].
    rewrite IH. destruct (split sep a) as [|piece rest] eqn:E; [|reflexivity].
    now apply split_nonempty in E.
Qed.

Lemma split_without_sep (sep : ascii) (s : string) :
  ~ occursIn sep s -> split sep s = [s].
Proof.
  unfold occursIn. induction s as [|c s IH]; intros Hno; [reflexivity |].
  cbn [split]. cbn in Hno.
  destruct (Ascii.eqb_spec c sep) as [-> | Hne]; [tauto |].
  rewrite IH by tauto. reflexivity.
Qed.

Lemma split_concat (sep : ascii) (ls : list string) :
  ls <> [] -> Forall (fun l => ~ occursIn sep l) ls ->
  split sep (String.concat (String sep EmptyString) ls) = ls.
Proof.
  induction ls as [|l ls IH]; [congruence |]. intros _ Hall.
  apply Forall_cons in Hall as [Hl Hls].
  destruct ls as [|l' ls'].
  - now apply split_without_sep.
  - change (String.concat (String sep EmptyString) (l :: l' :: ls'))
      with (l +:+ String sep (String.concat (String sep EmptyString) (l' :: ls'))).
    rewrite split_app_sep, (split_without_sep sep l Hl), IH; [reflexivity | discriminate | assumption].
Qed.

Lemma split_pieces (sep : ascii) (s : string) :
  forall piece, piece ∈ split sep s ->
    ~ occursIn sep piece /\ forall c, occursIn c piece -> occursIn c s.
Proof.
  unfold occursIn. induction s as [|c s IH]; intros piece Hin.
  - cbn in Hin. apply list_elem_of_singleton in Hin as ->. cbn. tauto.
  - destruct (Ascii.eqb_spec c sep) as [-> | Hne].
    + cbn [split] in Hin. rewrite Ascii.eqb_refl in Hin.
      apply elem_of_cons in Hin as [-> | Hin]; [cbn; tauto |].
      destruct (IH piece Hin) as [H1 H2]. split; [assumption |].
      intros x Hx. right. now apply H2.
    + destruct (split_cons_other sep c s) as (p & rest & E & E').
      { now apply Ascii.eqb_neq. }
      rewrite E' in Hin. apply elem_of_cons in Hin as [-> | Hin].
      * destruct (IH p) as [H1 H2]; [rewrite E; apply list_elem_of_here |].
        split.
        -- cbn. intros [H | H]; [congruence | tauto].
        -- cbn. intros x [<- | Hx]; [now left | right; now apply H2].
      * destruct (IH piece) as [H1 H2]; [rewrite E; now apply list_elem_of_further |].
        split; [assumption |]. intros x Hx. right. now apply H2.
Qed.

Lemma split_snoc (sep c : ascii) (s : string) :
  Ascii.eqb c sep = false ->
  exists pieces piece,
    split sep s = pieces ++ [piece]
    /\ split sep (s +:+ String c EmptyString)
       = pieces ++ [piece +:+ String c EmptyString].
Proof.
  intros Hc. induction s as [|a s (pieces & piece & E & E')].
  - exists [], EmptyString. rewrite !append_empty_l. cbn [split]. now rewrite Hc.
  - rewrite append_cons. cbn [split]. rewrite E, E'.
    destruct (Ascii.eqb a sep).
    + now exists (EmptyString :: pieces), piece.
    + destruct pieces as [|q qs]; cbn [app].
      * now exists [], (String a piece).
      * now exists (String a q :: qs), piece.
Qed.

Lemma trimStart_chars (s : string) (c : ascii) :
  occursIn c (trimStart s) -> occursIn c s.
Proof.
  unfold occursIn. induction s as [|a s IH]; [tauto |].
  cbn [trimStart]. destruct (isWhiteSpace a); [|tauto].
  intros H. right. now apply IH.
Qed.

Lemma trimEnd_chars (s : string) (c : ascii) :
  occursIn c (trimEnd s) -> occursIn c s.
Proof.
  unfold occursIn. induction s as [|a s IH]; [tauto |].
  cbn [trimEnd]. destruct (isWhiteSpace a && isEmpty (trimEnd s)); cbn; [tauto |].
  intros [H | H]; [now left | right; now apply IH].
Qed.

Lemma trim_chars (s : string) (c : ascii) : occursIn c (trim s) -> occursIn c s.
Proof. intros H. now apply trimStart_chars, trimEnd_chars. Qed.

Lemma dropLast_chars (s : string) (c : ascii) :
  occursIn c (dropLast s) -> occursIn c s.
Proof.
  unfold occursIn. induction s as [|a s IH]; [tauto |].
  destruct s as [|b s']; [cbn; tauto |].
  change (dropLast (String a (String b s'))) with (String a (dropLast (String b s'))).
  intros [H | H]; [now left | right; now apply IH].
Qed.

Lemma stripQuotes_chars (s : string) (c : ascii) :
  occursIn c (stripQuotes s) -> occursIn c s.
Proof.
  unfold stripQuotes.
  set (rest := match s with String a s' => if isQuote a then s' else s | EmptyString => s end).
  assert (Hrest : occursIn c rest -> occursIn c s).
  { subst rest. destruct s as [|a s']; [tauto |].
    destruct (isQuote a); [|tauto]. intros H. now right. }
  intros H. apply Hrest.
  destruct (lastUnit rest) as [q|]; [|assumption].
  destruct (isQuote q); [now apply dropLast_chars | assumption].
Qed.

Lemma normalizeCell_chars (s : string) (c : ascii) :
  occursIn c (normalizeCell s) -> occursIn c s.
Proof. intros H. now apply trim_chars, stripQuotes_chars. Qed.

Lemma trimEnd_snoc (s : string) (c : ascii) :
  isWhiteSpace c = true -> trimEnd (s +:+ String c EmptyString) = trimEnd s.
Proof.
  intros Hc. induction s as [|a s IH].
  - rewrite append_empty_l. cbn. now rewrite Hc.
  - rewrite append_cons. cbn [trimEnd]. now rewrite IH.
Qed.

Lemma trimStart_snoc (s : string) (c : ascii) :
  isWhiteSpace c = true ->
  trimStart (s +:+ String c EmptyString)
  = if isEmpty (trimStart s) then EmptyString
    else trimStart s +:+ String c EmptyString.
Proof.
  intros Hc. induction s as [|a s IH].
  - rewrite append_empty_l. cbn. now rewrite Hc.
  - rewrite append_cons. cbn [trimStart].
    destruct (isWhiteSpace a); [exact IH | reflexivity].
Qed.

Lemma trim_snoc (s : string) (c : ascii) :
  isWhiteSpace c = true -> trim (s +:+ String c EmptyString) = trim s.
Proof.
  intros Hc. unfold trim. rewrite (trimStart_snoc s c Hc).
  destruct (trimStart s) as [|a u] eqn:E; [reflexivity |].
  cbn [isEmpty]. now apply trimEnd_snoc.
Qed.

(** ** Parsing *)

Lemma parseCsv_lines (ls : list string) :
  ls <> [] -> Forall (fun l => ~ occursIn "010" l) ls ->
  parseCsv (lines ls) = map parseLine ls.
Proof.
  intros Hne Hall. unfold parseCsv, lines. now rewrite split_concat.
Qed.

Lemma parseLine_withCR (line : string) :
  parseLine (withCR line) = parseLine line.
Proof.
  unfold parseLine, withCR.
  destruct (split_snoc "," "013" line eq_refl) as (pieces & piece & E & E').
  rewrite E, E', !map_app. cbn [map]. unfold normalizeCell at 2 4.
  now rewrite (trim_snoc piece "013" eq_refl).
Qed.

Lemma parsed_rows_exist (text : string) :
  parseCsv text <> [] /\ forall row, row ∈ parseCsv text -> row <> [].
Proof.
  unfold parseCsv. split.
  - intros H. apply map_eq_nil in H. now apply split_nonempty in H.
  - intros row Hrow.
    change (map ?f ?l) with (f <$> l) in Hrow.
    apply list_elem_of_fmap in Hrow as (line & -> & _).
    intros H. apply map_eq_nil in H. now apply split_nonempty in H.
Qed.

(** X1. The parser always yields at least one row and every row at least
    one cell, and no cell holds a comma or a line feed: the text is cut at
    every comma, also at one that stands between quotes. *)
Theorem parsed_cells_hold_no_separator (text : string) :
  parseCsv text <> []
  /\ forall row, row ∈ parseCsv text ->
       row <> []
       /\ forall cell, cell ∈ row ->
            ~ occursIn "," cell /\ ~ occursIn "010" cell.
Proof.
  unfold parseCsv. split.
  - intros H. apply map_eq_nil in H. now apply split_nonempty in H.
  - intros row Hrow.
    change (map ?f ?l) with (f <$> l) in Hrow.
    apply list_elem_of_fmap in Hrow as (line & -> & Hline).
    destruct (split_pieces "010" text line Hline) as [Hlf _].
    split.
    + intros H. apply map_eq_nil in H. now apply split_nonempty in H.
    + intros cell Hcell.
      change (map ?f ?l) with (f <$> l) in Hcell.
      apply list_elem_of_fmap in Hcell as (piece & -> & Hpiece).
      destruct (split_pieces "," line piece Hpiece) as [Hcomma Hsub].
      split; intros H; apply normalizeCell_chars in H; auto.
Qed.

Lemma parseCsv_trailing_line_feed (text : string) :
  parseCsv (text +:+ String "010" EmptyString) = parseCsv text ++ [[EmptyString]].
Proof. unfold parseCsv. now rewrite split_app_sep, map_app. Qed.

Lemma ingestRows_blank_last_row (rows : list (list string)) :
  rows <> [] -> ingestRows (rows ++ [[EmptyString]]) = ingestRows rows.
Proof.
  intros Hne. destruct rows as [|header rows]; [congruence |].
  unfold ingestRows.
  change (headersOf ((header :: rows) ++ [[EmptyString]])) with (headersOf (header :: rows)).
  replace (dataRowsOf ((header :: rows) ++ [[EmptyString]]))
    with (dataRowsOf (header :: rows)); [reflexivity |].
  unfold dataRowsOf. cbn [app drop].
  rewrite !drop_0, List.filter_app. cbn. now rewrite app_nil_r.
Qed.

(** X2. A line feed at the end of the text changes nothing: the empty
    last line it produces is not a data row. *)
Theorem trailing_line_feed_is_ignored (fileName text : string) :
  processFile fileName (text +:+ String "010" EmptyString)
  = processFile fileName text.
Proof.
  unfold processFile, readRows.
  destruct (endsWith fileName ".csv"); [|reflexivity].
  rewrite parseCsv_trailing_line_feed, ingestRows_blank_last_row; [reflexivity |].
  apply (proj1 (parsed_rows_exist text)).
Qed.

Lemma withCR_no_line_feed (line : string) :
  ~ occursIn "010" line -> ~ occursIn "010" (withCR line).
Proof.
  unfold occursIn, withCR. rewrite chars_append. intros Hno H.
  apply in_app_or in H as [H | H]; [tauto |].
  cbn in H. destruct H as [H | []]. discriminate.
Qed.

Lemma parseLine_optional_CR (ls ls' : list string) :
  Forall2 (fun l l' => l' = l \/ l' = withCR l) ls ls' ->
  map parseLine ls' = map parseLine ls
  /\ (Forall (fun l => ~ occursIn "010" l) ls ->
      Forall (fun l => ~ occursIn "010" l) ls').
Proof.
  induction 1 as [|l l' ls ls' Hl _ [IH1 IH2]]; [split; [reflexivity | auto] |].
  split.
  - cbn [map]. rewrite IH1. destruct Hl as [-> | ->]; [reflexivity |].
    now rewrite parseLine_withCR.
  - intros Hall. apply Forall_cons in Hall as [H1 H2].
    constructor; [|now apply IH2].
    destruct Hl as [-> | ->]; [assumption | now apply withCR_no_line_feed].
Qed.

(** X3. Carriage returns at the ends of lines change nothing: a text
    whose lines end in CR LF, wholly or in part, is processed exactly as
    the text with plain line feeds. *)
Theorem carriage_returns_are_ignored (fileName : string) (ls ls' : list string) :
  Forall (fun l => ~ occursIn "010" l) ls ->
  Forall2 (fun l l' => l' = l \/ l' = withCR l) ls ls' ->
  processFile fileName (lines ls') = processFile fileName (lines ls).
Proof.
  intros Hall H2.
  destruct (parseLine_optional_CR ls ls' H2) as [Hmap Hall'].
  assert (E : parseCsv (lines ls') = parseCsv (lines ls)).
  { destruct ls as [|l ls].
    - apply Forall2_nil_inv_l in H2. now subst.
    - destruct ls' as [|l' ls'']; [now apply Forall2_nil_inv_r in H2 |].
      rewrite !parseCsv_lines; auto; discriminate. }
  unfold processFile, readRows. now rewrite E.
Qed.

Lemma carriage_returns_are_ignored_witness :
  processFile "contacts.csv" (lines [withCR "email"; withCR "a@b.com"; ""])
  = processFile "contacts.csv" (lines ["email"; "a@b.com"; ""]).
Proof.
  apply carriage_returns_are_ignored.
  - repeat (apply Forall_cons; split; [vm_compute; intuition discriminate |]).
    apply Forall_nil. exact I.
  - constructor; [right; reflexivity |].
    constructor; [right; reflexivity |].
    constructor; [left; reflexivity |].
    constructor.
Defined.

(** ** Consequences of the address shape *)

Lemma validateEmail_parts (e : string) :
  validateEmail e = true ->
  exists l d t : string,
    e = l +:+ "@" +:+ d +:+ "." +:+ t /\ atomRun l /\ atomRun d /\ atomRun t.
Proof.
  unfold validateEmail, Regex.test, emailRegex.
  rewrite RegexFacts.matches_lang, RegexFacts.lang_cat_inv.
  intros (l & s1 & -> & Hl & H1).
  apply RegexFacts.lang_cat_inv in H1 as (a & s2 & -> & Ha & H2).
  apply RegexFacts.lang_cat_inv in H2 as (d & s3 & -> & Hd & H3).
  apply RegexFacts.lang_cat_inv in H3 as (b & t & -> & Hb & Ht).
  apply RegexFacts.lang_chr in Ha as ->.
  apply RegexFacts.lang_chr in Hb as ->.
  exists l, d, t. rewrite <- !atomRun_lang. auto.
Qed.

Lemma countUnit_append (c : ascii) (s1 s2 : string) :
  countUnit c (s1 +:+ s2) = (countUnit c s1 + countUnit c s2)%nat.
Proof.
  induction s1 as [|a s1 IH]; [reflexivity |].
  rewrite append_cons. cbn [countUnit]. rewrite IH. lia.
Qed.

Lemma countUnit_absent (c : ascii) (s : string) :
  ~ occursIn c s -> countUnit c s = 0%nat.
Proof.
  unfold occursIn. induction s as [|a s IH]; [reflexivity |].
  cbn. intros Hno. destruct (Ascii.eqb_spec a c) as [-> | _]; [tauto |].
  rewrite IH; tauto.
Qed.

Lemma length_append (s1 s2 : string) :
  String.length (s1 +:+ s2) = (String.length s1 + String.length s2)%nat.
Proof.
  induction s1 as [|a s1 IH]; [reflexivity |].
  rewrite append_cons. cbn [String.length]. now rewrite IH.
Qed.

Lemma atomRun_facts (s : string) :
  atomRun s ->
  (1 <= String.length s)%nat /\ countUnit "@" s = 0%nat
  /\ forall c, occursIn c s -> isWhiteSpace c = false.
Proof.
  intros [Hne Hall]. split; [destruct s; [congruence | cbn; lia] |]. split.
  - apply countUnit_absent. intros H. now destruct (Hall _ H).
  - intros c Hc. now destruct (Hall c Hc).
Qed.

Lemma trimStart_no_white_space (s : string) :
  (forall c, firstUnit s = Some c -> isWhiteSpace c = false) -> trimStart s = s.
Proof.
  destruct s as [|a s]; [reflexivity |]. intros H. cbn [trimStart].
  now rewrite (H a eq_refl).
Qed.

Lemma trimEnd_no_white_space (s : string) :
  (forall c, lastUnit s = Some c -> isWhiteSpace c = false) -> trimEnd s = s.
Proof.
  induction s as [|a s IH]; [reflexivity |]. intros H. cbn [trimEnd].
  destruct s as [|b s'].
  - cbn in *. now rewrite (H a eq_refl).
  - rewrite IH by exact H. cbn [isEmpty]. now rewrite andb_false_r.
Qed.

Lemma trim_trimmed (s : string) : trimmed s -> trim s = s.
Proof.
  intros [H1 H2]. unfold trim.
  rewrite (trimStart_no_white_space s H1). now apply trimEnd_no_white_space.
Qed.

Lemma firstUnit_occurs (s : string) (c : ascii) : firstUnit s = Some c -> occursIn c s.
Proof. destruct s; cbn; [discriminate |]. intros [= ->]. now left. Qed.

Lemma lastUnit_occurs (s : string) (c : ascii) : lastUnit s = Some c -> occursIn c s.
Proof.
  unfold occursIn. induction s as [|a s IH]; [discriminate |].
  destruct s as [|b s']; [cbn; intros [= ->]; now left |].
  intros H. right. now apply IH.
Qed.

Lemma no_white_space_trimmed (s : string) :
  (forall c, occursIn c s -> isWhiteSpace c = false) -> trimmed s.
Proof.
  intros H. split; intros c Hc; apply H;
    [now apply firstUnit_occurs | now apply lastUnit_occurs].
Qed.

(** X4. An address that passes [validateEmail] holds exactly one "@",
    at least one ".", no white space anywhere and at least five
    characters; trimming leaves it as it is. *)
Theorem valid_address_consequences (e : string) :
  validateEmail e = true ->
  countUnit "@" e = 1%nat
  /\ occursIn "." e
  /\ (forall c, occursIn c e -> isWhiteSpace c = false)
  /\ (5 <= String.length e)%nat
  /\ trim e = e.
Proof.
  intros H. destruct (validateEmail_parts e H) as (l & d & t & -> & Hl & Hd & Ht).
  destruct (atomRun_facts l Hl) as (Ll & Cl & Wl).
  destruct (atomRun_facts d Hd) as (Ld & Cd & Wd).
  destruct (atomRun_facts t Ht) as (Lt & Ct & Wt).
  assert (Hws : forall c, occursIn c (l +:+ "@" +:+ d +:+ "." +:+ t) ->
                          isWhiteSpace c = false).
  { unfold occursIn. intros c. rewrite !chars_append, !in_app_iff. cbn.
    intros [Hc | [[<- | []] | [Hc | [[<- | []] | Hc]]]]; auto. }
  split; [| split; [| split; [exact Hws | split]]].
  - rewrite !countUnit_append, Cl, Cd, Ct. reflexivity.
  - unfold occursIn. rewrite !chars_append, !in_app_iff. cbn. tauto.
  - rewrite !length_append. cbn. lia.
  - now apply trim_trimmed, no_white_space_trimmed.
Qed.

Lemma valid_address_consequences_witness :
  countUnit "@" "a@b.com" = 1%nat
  /\ occursIn "." "a@b.com"
  /\ (forall c, occursIn c "a@b.com" -> isWhiteSpace c = false)
  /\ (5 <= String.length "a@b.com")%nat
  /\ trim "a@b.com" = "a@b.com".
Proof. apply valid_address_consequences. reflexivity. Defined.

(** ** More on column resolution *)

Lemma startsWith_includes (s p : string) :
  startsWith s p = true -> includes s p = true.
Proof. intros H. destruct s; cbn [includes]; now rewrite H. Qed.

Lemma includes_tail (s needle : string) (c : ascii) :
  includes s (String c needle) = true -> includes s needle = true.
Proof.
  induction s as [|a s IH]; [discriminate |].
  cbn [includes]. rewrite !orb_true_iff. intros [H | H]; right.
  - cbn [startsWith] in H. apply andb_prop in H as [_ H].
    now apply startsWith_includes.
  - now apply IH.
Qed.

Lemma findIndexFrom_ext {A : Type} (p q : A -> bool) (l : list A) :
  (forall x, p x = q x) -> forall i, findIndexFrom p l i = findIndexFrom q l i.
Proof.
  intros E. induction l as [|x l IH]; intros i; [reflexivity |].
  cbn [findIndexFrom]. now rewrite E, IH.
Qed.

(** X5. The three email keywords come to one: a header is an email header
    exactly when it contains "mail", so the email column is the leftmost
    header cell that contains "mail". *)
Theorem email_header_contains_mail (headers : list string) :
  (forall h, emailHeader h = includes h "mail")
  /\ emailIndex (resolveColumns headers)
     = findIndex (fun h => includes h "mail") headers.
Proof.
  assert (E : forall h, emailHeader h = includes h "mail").
  { intros h. unfold emailHeader.
    destruct (includes h "mail") eqn:Hm; [apply orb_true_r |].
    destruct (includes h "email") eqn:H1.
    { apply includes_tail in H1. congruence. }
    destruct (includes h "e-mail") eqn:H2; [|reflexivity].
    do 2 apply includes_tail in H2. congruence. }
  split; [exact E |].
  cbn [resolveColumns emailIndex]. unfold findIndex.
  now apply findIndexFrom_ext.
Qed.

(** X6. Every resolved column lies within the header row: for each field
    the index is -1 or at least 0 and below the number of header cells. *)
Theorem resolved_columns_within_header (header : list string) (f : Field) :
  -1 <= columnOf (columnMapOf header) f < Z.of_nat (length header).
Proof.
  unfold columnMapOf. rewrite columnOf_findIndex.
  destruct (findIndex_spec (headerPredicate f) (map toLowerCase header))
    as [[E _] | (Hpos & h & Hh & _)].
  - rewrite E. lia.
  - apply lookup_lt_Some in Hh. rewrite length_map in Hh. lia.
Qed.

(** ** The three ways an ingestion ends *)

Lemma processFile_cases (fileName text : string) :
  (readRows fileName text = None
   /\ processFile fileName text
      = [SetIsProcessing true; SetUploadProgress 0;
         ShowToast ToastXlsxSupport; SetIsProcessing false;
         SetIsProcessing false; SetUploadProgress 0])
  \/ (exists rows,
        readRows fileName text = Some rows
        /\ emailIndex (resolveColumns (headersOf rows)) = -1
        /\ processFile fileName text
           = [SetIsProcessing true; SetUploadProgress 0;
              ShowToast ToastNoEmailColumn; SetIsProcessing false;
              SetIsProcessing false; SetUploadProgress 0])
  \/ (exists rows,
        readRows fileName text = Some rows
        /\ emailIndex (resolveColumns (headersOf rows)) <> -1
        /\ let cands :=
             candidatesOf (resolveColumns (headersOf rows)) (dataRowsOf rows) in
           let n := length (dataRowsOf rows) in
           processFile fileName text
           = [SetIsProcessing true; SetUploadProgress 0]
             ++ map SetUploadProgress (map (fun i => progressAt i n) (seq 0 n))
             ++ [SetContacts cands;
                 SetValidContacts (List.filter hasValidEmail cands);
                 SetInvalidContacts
                   (List.filter (fun c => negb (hasValidEmail c)) cands);
                 ShowToast
                   (ToastFileProcessed
                      (length (List.filter hasValidEmail cands))
                      (length (List.filter (fun c => negb (hasValidEmail c)) cands)));
                 SetIsProcessing false; SetUploadProgress 0]).
Proof.
  unfold processFile. destruct (readRows fileName text) as [rows|]; [|now left].
  right.
  destruct (Z.eq_dec (emailIndex (resolveColumns (headersOf rows))) (-1)) as [E | E].
  - left. exists rows. now rewrite (ingestRows_unresolved rows E).
  - right. exists rows. split; [reflexivity |]. split; [assumption |].
    rewrite (ingestRows_resolved rows E). cbv zeta. rewrite runLoop_spec.
    cbn [reported processedContacts valid invalid].
    now rewrite <- app_assoc.
Qed.

Ltac trace_member H :=
  repeat first
    [ apply elem_of_nil in H; contradiction
    | apply not_elem_of_progress in H as [? H]; discriminate
    | apply elem_of_cons in H as [H | H]; [try discriminate |]
    | apply elem_of_app in H as [H | H] ].

Lemma runEffects_ingested (st : State) (ps : list Q)
    (cs vs ws : list Contact) (t : Toast) :
  runEffects st
    ([SetIsProcessing true; SetUploadProgress 0]
     ++ map SetUploadProgress ps
     ++ [SetContacts cs; SetValidContacts vs; SetInvalidContacts ws;
         ShowToast t; SetIsProcessing false; SetUploadProgress 0])
  = mkState (selectedCampaign st) (file st) cs vs ws false 0%Q.
Proof.
  rewrite !runEffects_app.
  set (st1 := runEffects st [SetIsProcessing true; SetUploadProgress 0]).
  destruct (runEffects_progress st1 ps) as (H1 & H2 & _).
  set (st2 := runEffects st1 (map SetUploadProgress ps)) in *.
  cbn. now rewrite H1, H2.
Qed.

Lemma filter_complement_perm {A : Type} (p : A -> bool) (l : list A) :
  l ≡ₚ List.filter p l ++ List.filter (fun x => negb (p x)) l.
Proof.
  induction l as [|x l IH]; [reflexivity |].
  cbn [List.filter]. destruct (p x); cbn [negb].
  - cbn [app]. now constructor.
  - rewrite <- Permutation_middle. now constructor.
Qed.

(** X7. When an ingestion ends on the "File processed" notification, the
    two counts it announces are the sizes of the valid and the invalid
    list left in the state, the contact list is a rearrangement of the
    two lists together, every valid contact passes [validateEmail] and
    every invalid one fails it. *)
Theorem processed_summary_is_consistent (st : State) (fileName text : string)
    (nValid nInvalid : nat) :
  ShowToast (ToastFileProcessed nValid nInvalid) ∈ processFile fileName text ->
  let st' := runEffects st (processFile fileName text) in
  nValid = length (validContacts st')
  /\ nInvalid = length (invalidContacts st')
  /\ contacts st' ≡ₚ validContacts st' ++ invalidContacts st'
  /\ (forall c, c ∈ validContacts st' -> validateEmail (email c) = true)
  /\ (forall c, c ∈ invalidContacts st' -> validateEmail (email c) = false).
Proof.
  intros H st'. subst st'.
  destruct (processFile_cases fileName text)
    as [[_ E] | [(rows & _ & _ & E) | (rows & _ & _ & E)]];
    cbv zeta in E; rewrite E in H |- *.
  - trace_member H.
  - trace_member H.
  - rewrite runEffects_ingested. cbn [contacts validContacts invalidContacts].
    trace_member H. injection H as -> ->.
    split; [reflexivity |]. split; [reflexivity |].
    split; [apply filter_complement_perm |].
    split; intros c Hc; apply elem_of_List_filter in Hc as [_ Hc];
      unfold hasValidEmail in Hc; [assumption | now apply negb_true_iff].
Qed.

Lemma processed_summary_is_consistent_witness :
  let st' := runEffects initialState (processFile "contacts.csv" sampleText) in
  1%nat = length (validContacts st')
  /\ 1%nat = length (invalidContacts st')
  /\ contacts st' ≡ₚ validContacts st' ++ invalidContacts st'
  /\ (forall c, c ∈ validContacts st' -> validateEmail (email c) = true)
  /\ (forall c, c ∈ invalidContacts st' -> validateEmail (email c) = false).
Proof.
  apply (processed_summary_is_consistent initialState "contacts.csv" sampleText 1 1).
  vm_compute. do 8 apply list_elem_of_further. apply list_elem_of_here.
Defined.

(** X8. Whatever the file, when [processFile] has run the component is
    no longer processing and the progress is back at 0, and neither the
    selected campaign nor the recorded file has been touched. *)
Theorem processFile_always_settles (st : State) (fileName text : string) :
  let st' := runEffects st (processFile fileName text) in
  isProcessing st' = false
  /\ uploadProgress st' = 0%Q
  /\ selectedCampaign st' = selectedCampaign st
  /\ file st' = file st.
Proof.
  cbv zeta.
  destruct (processFile_cases fileName text)
    as [[_ E] | [(rows & _ & _ & E) | (rows & _ & _ & E)]];
    cbv zeta in E; rewrite E.
  - cbn. auto.
  - cbn. auto.
  - rewrite runEffects_ingested. cbn. auto.
Qed.

Lemma toastsOf_progress (ps : list Q) :
  toastsOf (map SetUploadProgress ps) = [].
Proof. induction ps as [|p ps IH]; [reflexivity | exact IH]. Qed.

(** X9. Every run of [processFile] raises exactly one notification,
    whether or not the text of the file can be read: "Failed to process
    file" when reading is rejected, and only then; otherwise the
    spreadsheet notice, the missing email column, or "File processed". *)
Theorem processFile_raises_one_toast (fileName : string)
    (content : option string) :
  exists t,
    toastsOf (processFileRead fileName content) = [t]
    /\ (t = ToastProcessFailed <-> content = None)
    /\ (t = ToastProcessFailed \/ t = ToastXlsxSupport \/ t = ToastNoEmailColumn
        \/ exists nValid nInvalid, t = ToastFileProcessed nValid nInvalid).
Proof.
  destruct content as [text|]; cbn [processFileRead].
  - destruct (processFile_cases fileName text)
      as [[_ E] | [(rows & _ & _ & E) | (rows & _ & _ & E)]];
      cbv zeta in E; rewrite E.
    + exists ToastXlsxSupport. split; [reflexivity |].
      split; [split; discriminate | auto].
    + exists ToastNoEmailColumn. split; [reflexivity |].
      split; [split; discriminate | auto].
    + eexists. split.
      * unfold toastsOf at 1. rewrite !omap_app.
        fold (toastsOf (map SetUploadProgress
                (map (fun i => progressAt i (length (dataRowsOf rows)))
                   (seq 0 (length (dataRowsOf rows)))))).
        rewrite toastsOf_progress. reflexivity.
      * split; [split; discriminate |]. right. right. right. eauto.
  - exists ToastProcessFailed. split; [reflexivity |]. split; [tauto | auto].
Qed.

Lemma progressAt_bounds (i total : nat) :
  (i < total)%nat -> (0 <= progressAt i total <= 100)%Q.
Proof.
  intros Hi. split.
  - unfold progressAt, Binary64.mul. apply Binary64Facts.round_nonneg.
    apply Qmult_le_0_compat; [|discriminate].
    unfold Binary64.div. apply Binary64Facts.round_nonneg. unfold Qdiv.
    apply Qmult_le_0_compat; [|apply Qinv_le_0_compat];
      apply Binary64Facts.round_nonneg;
      change 0%Q with (inject_Z 0); rewrite <- Zle_Qle; lia.
  - apply Qle_trans with (progressAt (total - 1) total).
    + apply progressAt_mono. lia.
    + rewrite progressAt_last by lia. apply Qle_refl.
Qed.

(** X10. Every value that [processFile] hands to [setUploadProgress]
    lies between 0 and 100. *)
Theorem progress_stays_within_percent (fileName text : string) (p : Q) :
  p ∈ progressUpdates (processFile fileName text) -> (0 <= p <= 100)%Q.
Proof.
  intros H.
  destruct (processFile_cases fileName text)
    as [[_ E] | [(rows & _ & _ & E) | (rows & Hrows & Hres & _)]].
  - rewrite E in H. cbn in H.
    repeat (apply elem_of_cons in H as [-> | H]; [split; discriminate |]).
    now apply elem_of_nil in H.
  - rewrite E in H. cbn in H.
    repeat (apply elem_of_cons in H as [-> | H]; [split; discriminate |]).
    now apply elem_of_nil in H.
  - rewrite (progressUpdates_resolved fileName text rows Hrows Hres) in H.
    apply elem_of_cons in H as [-> | H]; [split; discriminate |].
    apply elem_of_app in H as [H | H].
    + apply list_elem_of_lookup in H as [i Hi].
      apply perRow_lookup_inv in Hi as [Hlt ->].
      now apply progressAt_bounds.
    + apply list_elem_of_singleton in H as ->. split; discriminate.
Qed.

Lemma progress_stays_within_percent_witness :
  (0 <= progressAt 1 3 <= 100)%Q.
Proof.
  apply (progress_stays_within_percent "contacts.csv" sampleText).
  vm_compute. do 2 apply list_elem_of_further. apply list_elem_of_here.
Defined.

(** ** Trimmed fields *)

Lemma trimStart_first (s : string) (c : ascii) :
  firstUnit (trimStart s) = Some c -> isWhiteSpace c = false.
Proof.
  induction s as [|a s IH]; [discriminate |].
  cbn [trimStart]. destruct (isWhiteSpace a) eqn:Ha; [exact IH |].
  cbn. now intros [= <-].
Qed.

Lemma trimEnd_first (s : string) (c : ascii) :
  firstUnit (trimEnd s) = Some c -> firstUnit s = Some c.
Proof.
  destruct s as [|a s]; [discriminate |]. cbn [trimEnd].
  now destruct (isWhiteSpace a && isEmpty (trimEnd s)).
Qed.

Lemma trimEnd_last (s : string) (c : ascii) :
  lastUnit (trimEnd s) = Some c -> isWhiteSpace c = false.
Proof.
  induction s as [|a s IH]; [discriminate |].
  cbn [trimEnd].
  destruct (trimEnd s) as [|b t] eqn:E.
  - cbn [isEmpty]. rewrite andb_true_r.
    destruct (isWhiteSpace a) eqn:Ha; [discriminate |].
    cbn. now intros [= <-].
  - cbn [isEmpty]. rewrite andb_false_r. exact IH.
Qed.

Lemma trim_is_trimmed (s : string) : trimmed (trim s).
Proof.
  unfold trim. split; intros c Hc.
  - apply trimEnd_first in Hc. now apply trimStart_first in Hc.
  - now apply trimEnd_last in Hc.
Qed.

Lemma optionalField_trimmed (row : list string) (i : Z) (s : string) :
  optionalField row i = Some s -> trimmed s.
Proof.
  unfold optionalField. destruct (0 <=? i); [|discriminate].
  destruct (cellAt row i) as [cell|]; [|discriminate].
  cbn. intros [= <-]. apply trim_is_trimmed.
Qed.

Lemma candidateOf_trimmed (cm : ColumnMap) (row : list string) (c : Contact) :
  candidateOf cm row = Some c ->
  email c <> EmptyString /\ trimmed (email c)
  /\ (forall s, first_name c = Some s \/ last_name c = Some s
                \/ company c = Some s \/ title c = Some s -> trimmed s).
Proof.
  intros H. split; [now apply (candidate_email_nonblank cm row) |].
  unfold candidateOf in H. destruct (emailCellBlank cm row); [discriminate |].
  injection H as <-. cbn [email first_name last_name company title]. split.
  - destruct (cellAt row (emailIndex cm)) as [cell|]; cbn.
    + apply trim_is_trimmed.
    + split; discriminate.
  - intros s [H | [H | [H | H]]]; eapply optionalField_trimmed; eassumption.
Qed.

(** X11. Every contact that an ingestion puts into the contact, valid or
    invalid list has a non-empty email without white space at either end,
    and each optional field that has a value has it without white space
    at either end (the value may be empty). *)
Theorem ingested_fields_are_trimmed (fileName text : string)
    (cs : list Contact) (c : Contact) :
  SetContacts cs ∈ processFile fileName text
  \/ SetValidContacts cs ∈ processFile fileName text
  \/ SetInvalidContacts cs ∈ processFile fileName text ->
  c ∈ cs ->
  email c <> EmptyString /\ trimmed (email c) /\ trim (email c) = email c
  /\ (forall s, first_name c = Some s \/ last_name c = Some s
                \/ company c = Some s \/ title c = Some s ->
                trimmed s /\ trim s = s).
Proof.
  intros H Hc.
  assert (Hcand : exists cm rows, c ∈ candidatesOf cm rows).
  { destruct (processFile_cases fileName text)
      as [[_ E] | [(rows & _ & _ & E) | (rows & _ & _ & E)]];
      cbv zeta in E; rewrite E in H.
    - destruct H as [H | [H | H]]; trace_member H.
    - destruct H as [H | [H | H]]; trace_member H.
    - exists (resolveColumns (headersOf rows)), (dataRowsOf rows).
      destruct H as [H | [H | H]]; trace_member H; injection H as ->;
        [assumption | |]; now apply elem_of_List_filter in Hc as [Hc _]. }
  destruct Hcand as (cm & rows & Hin).
  apply candidate_origin in Hin as (row & _ & _ & Hrow).
  destruct (candidateOf_trimmed cm row c Hrow) as (Hne & Htr & Hopt).
  split; [assumption |]. split; [assumption |].
  split; [now apply trim_trimmed |].
  intros s Hs. split; [now apply Hopt | apply trim_trimmed; now apply Hopt].
Qed.

Lemma ingested_fields_are_trimmed_witness :
  email (mkContact "a@b.com" (Some "Alice") None None None) <> EmptyString
  /\ trimmed "a@b.com" /\ trim "a@b.com" = "a@b.com"
  /\ (forall s, Some "Alice" = Some s \/ None = Some s
                \/ None = Some s \/ None = Some s ->
                trimmed s /\ trim s = s).
Proof.
  apply (ingested_fields_are_trimmed "contacts.csv" sampleText
           [mkContact "a@b.com" (Some "Alice") None None None]
           (mkContact "a@b.com" (Some "Alice") None None None)).
  - right. left. vm_compute. do 6 apply list_elem_of_further. apply list_elem_of_here.
  - apply list_elem_of_here.
Defined.

(** ** Choosing a file *)

(** X12. Only a file whose name ends in ".csv" is ever parsed: when
    [handleFileUpload] sets the contact list, the first chosen file has
    that extension and the list holds the candidates of its parsed text;
    further files of the event play no part. *)
Theorem only_csv_files_are_parsed (files : list (string * string))
    (es : list Effect) (cs : list Contact) :
  handleFileUpload files = FileAccepted es ->
  SetContacts cs ∈ es ->
  exists fileName text,
    files !! 0%nat = Some (fileName, text)
    /\ endsWith fileName ".csv" = true
    /\ cs = candidatesOf (resolveColumns (headersOf (parseCsv text)))
              (dataRowsOf (parseCsv text))
    /\ handleFileUpload [(fileName, text)] = FileAccepted es.
Proof.
  unfold handleFileUpload. cbn [lookup list_lookup].
  destruct (files !! 0%nat) as [[fileName text]|] eqn:Hf; [|discriminate].
  destruct (endsWith fileName ".csv") eqn:Hcsv; cbn [negb andb].
  - intros [= <-] H. exists fileName, text.
    split; [reflexivity |]. split; [assumption |].
    split; [| unfold handleFileUpload; cbn [lookup list_lookup];
              now rewrite Hcsv].
    apply elem_of_cons in H as [H | H]; [discriminate |].
    destruct (processFile_cases fileName text)
      as [[_ E] | [(rows & _ & _ & E) | (rows & Hrows & _ & E)]];
      cbv zeta in E; rewrite E in H.
    + trace_member H.
    + trace_member H.
    + unfold readRows in Hrows. rewrite Hcsv in Hrows. injection Hrows as <-.
      trace_member H. now injection H.
  - destruct (endsWith fileName ".xlsx") eqn:Hx; cbn [negb]; [|discriminate].
    intros [= <-] H. exfalso.
    apply elem_of_cons in H as [H | H]; [discriminate |].
    unfold processFile, readRows in H. rewrite Hcsv, Hx in H. trace_member H.
Qed.

Lemma only_csv_files_are_parsed_witness :
  exists fileName text,
    [("contacts.csv", sampleText); ("other.txt", "")] !! 0%nat
      = Some (fileName, text)
    /\ endsWith fileName ".csv" = true
    /\ candidatesOf (resolveColumns (headersOf sampleRows)) (dataRowsOf sampleRows)
       = candidatesOf (resolveColumns (headersOf (parseCsv text)))
           (dataRowsOf (parseCsv text))
    /\ handleFileUpload [(fileName, text)]
       = FileAccepted (SetFile (Some "contacts.csv")
                         :: processFile "contacts.csv" sampleText).
Proof.
  apply (only_csv_files_are_parsed
           [("contacts.csv", sampleText); ("other.txt", "")]).
  - reflexivity.
  - vm_compute. do 6 apply list_elem_of_further. apply list_elem_of_here.
Defined.

(** X13. Choosing a file whose name ends in ".xlsx" and not in ".csv"
    records the file and raises the spreadsheet notification, and leaves
    the contact, valid and invalid lists of an earlier ingestion in
    place. *)
Theorem spreadsheet_keeps_earlier_lists (st : State) (fileName text : string)
    (others : list (string * string)) :
  endsWith fileName ".csv" = false ->
  endsWith fileName ".xlsx" = true ->
  let choice := handleFileUpload ((fileName, text) :: others) in
  let st' := afterFileChoice st choice in
  choice
  = FileAccepted
      [SetFile (Some fileName); SetIsProcessing true; SetUploadProgress 0;
       ShowToast ToastXlsxSupport; SetIsProcessing false;
       SetIsProcessing false; SetUploadProgress 0]
  /\ file st' = Some fileName
  /\ contacts st' = contacts st
  /\ validContacts st' = validContacts st
  /\ invalidContacts st' = invalidContacts st
  /\ uploadButtonShown st' = uploadButtonShown st.
Proof.
  intros Hcsv Hx. cbv zeta.
  unfold handleFileUpload. cbn [lookup list_lookup].
  rewrite Hcsv, Hx. cbn [negb andb].
  unfold processFile, readRows. rewrite Hcsv, Hx.
  cbn. repeat split; reflexivity.
Qed.

Lemma spreadsheet_keeps_earlier_lists_witness :
  let choice := handleFileUpload [("contacts.xlsx", sampleText)] in
  let st' := afterFileChoice firstBatch choice in
  choice
  = FileAccepted
      [SetFile (Some "contacts.xlsx"); SetIsProcessing true; SetUploadProgress 0;
       ShowToast ToastXlsxSupport; SetIsProcessing false;
       SetIsProcessing false; SetUploadProgress 0]
  /\ file st' = Some "contacts.xlsx"
  /\ contacts st' = contacts firstBatch
  /\ validContacts st' = validContacts firstBatch
  /\ invalidContacts st' = invalidContacts firstBatch
  /\ uploadButtonShown st' = uploadButtonShown firstBatch.
Proof.
  apply (spreadsheet_keeps_earlier_lists firstBatch "contacts.xlsx" sampleText []);
    reflexivity.
Defined.

(** ** The answers of the store *)

Lemma rowsAdmissible_spec (db : Store) (rows : list (gmap string Json)) :
  forall seen,
    rowsAdmissible db seen rows = true ->
    Forall (fun row => is_Some (contactKey row)) rows
    /\ NoDup (omap contactKey rows)
    /\ forall k, k ∈ omap contactKey rows ->
         (k ∉ seen) /\ is_Some (campaigns db !! k.1).
Proof.
  induction rows as [|row rows IH]; intros seen H.
  - split; [constructor |]. split; [constructor |].
    intros k Hk. now apply elem_of_nil in Hk.
  - cbn [rowsAdmissible] in H. apply andb_prop in H as [Hkey Hrest].
    unfold keyAdmissible in Hkey.
    destruct (contactKey row) as [[c e]|] eqn:Ek; [|discriminate].
    apply andb_prop in Hkey as [Hex Hnew].
    apply bool_decide_eq_true in Hex.
    apply negb_true_iff, bool_decide_eq_false in Hnew.
    destruct (IH _ Hrest) as (Hall & Hnd & Hk).
    cbn [omap list_omap]. rewrite Ek.
    split; [constructor; [now rewrite Ek | assumption] |]. split.
    + constructor; [|assumption].
      intros Hin. destruct (Hk _ Hin) as [Hno _]. apply Hno, list_elem_of_here.
    + intros k Hin. apply elem_of_cons in Hin as [-> | Hin]; [now split |].
      destruct (Hk _ Hin) as [Hno Hc]. split; [|assumption].
      intros Hs. apply Hno. now apply list_elem_of_further.
Qed.

Lemma insertContacts_spec (error : bool) (rows : list (gmap string Json))
    (db db1 : Store) :
  insertContacts error rows db = Some db1 ->
  db1 = mkStore (campaigns db) (contactRows db ++ rows)
  /\ Forall (fun row => is_Some (contactKey row)) rows
  /\ NoDup (omap contactKey rows)
  /\ forall k, k ∈ omap contactKey rows ->
       (k ∉ storeKeys db) /\ is_Some (campaigns db !! k.1).
Proof.
  unfold insertContacts. destruct error; [discriminate |].
  destruct (rowsAdmissible db (omap contactKey (contactRows db)) rows) eqn:H;
    [|discriminate].
  intros [= <-]. split; [reflexivity |]. now apply rowsAdmissible_spec.
Qed.

Lemma keys_contactsToInsert (st : State) :
  omap contactKey (contactsToInsert st)
  = (fun c => (selectedCampaign st, email c)) <$> validContacts st.
Proof.
  unfold contactsToInsert.
  induction (validContacts st) as [|c v IH]; [reflexivity |].
  cbn [map omap list_omap]. rewrite contactKey_contactToInsert.
  cbn [fmap list_fmap]. f_equal. exact IH.
Qed.

(** X14. Unless the success notification is raised, a submission leaves
    the form as it was (contact, valid and invalid lists, selected
    campaign, recorded file) and writes to no campaign; the contacts table
    is unchanged too, except when the insert went through and the update
    was answered with an error: then the rows of the batch stay stored,
    nothing being rolled back, and the failure notification is raised. *)
Theorem unsuccessful_upload_keeps_form (replies : Replies) (st : State)
    (db : Store) :
  ~ uploadSucceeded (uploadContacts replies st db).1 ->
  let es := (uploadContacts replies st db).1 in
  let db' := (uploadContacts replies st db).2 in
  let st' := runEffects st es in
  let update :=
    UpdateCampaign (selectedCampaign st)
      {[ "total_contacts" := JNumber (Z.of_nat (length (validContacts st))) ]} in
  contacts st' = contacts st
  /\ validContacts st' = validContacts st
  /\ invalidContacts st' = invalidContacts st
  /\ selectedCampaign st' = selectedCampaign st
  /\ file st' = file st
  /\ campaigns db' = campaigns db
  /\ (update ∉ es -> db' = db)
  /\ (update ∈ es ->
      updateError replies = true
      /\ contactRows db' = contactRows db ++ contactsToInsert st
      /\ ShowToast ToastUploadFailed ∈ es).
Proof.
  intros Hno. cbv zeta.
  destruct (uploadContacts_cases replies st db)
    as [[_ E] | [(_ & _ & _ & E) | [(_ & _ & db1 & Hins & Hupd & E)
                                   | (_ & _ & db1 & _ & _ & E)]]];
    rewrite E in Hno |- *; cbn [fst snd].
  - cbn. do 6 (split; [reflexivity |]).
    split; [intros _; reflexivity |]. intros H. upload_member H.
  - cbn. do 6 (split; [reflexivity |]).
    split; [intros _; reflexivity |]. intros H. upload_member H.
  - apply insertContacts_spec in Hins as (-> & _).
    cbn. do 6 (split; [reflexivity |]). split.
    + intros H. exfalso. apply H.
      do 2 apply list_elem_of_further. apply list_elem_of_here.
    + intros _. split; [assumption |]. split; [reflexivity |].
      do 3 apply list_elem_of_further. apply list_elem_of_here.
  - exfalso. apply Hno. exists (length (validContacts st)).
    do 3 apply list_elem_of_further. apply list_elem_of_here.
Qed.

Lemma unsuccessful_upload_keeps_form_witness :
  let es := (uploadContacts updateRejected firstBatch sampleStore).1 in
  let db' := (uploadContacts updateRejected firstBatch sampleStore).2 in
  let st' := runEffects firstBatch es in
  let update :=
    UpdateCampaign (selectedCampaign firstBatch)
      {[ "total_contacts" :=
           JNumber (Z.of_nat (length (validContacts firstBatch))) ]} in
  contacts st' = contacts firstBatch
  /\ validContacts st' = validContacts firstBatch
  /\ invalidContacts st' = invalidContacts firstBatch
  /\ selectedCampaign st' = selectedCampaign firstBatch
  /\ file st' = file firstBatch
  /\ campaigns db' = campaigns sampleStore
  /\ (update ∉ es -> db' = sampleStore)
  /\ (update ∈ es ->
      updateError updateRejected = true
      /\ contactRows db' = contactRows sampleStore ++ contactsToInsert firstBatch
      /\ ShowToast ToastUploadFailed ∈ es).
Proof.
  apply (unsuccessful_upload_keeps_form updateRejected firstBatch sampleStore).
  vm_compute. intros (n & H). upload_member H.
Defined.

(** X15. A successful submission appends to the contacts table exactly
    the rows built from the valid contacts, one per contact and in their
    order, leaves every other campaign and the name and status of the
    selected one as they were, and resets the form: no file, empty lists,
    no selected campaign, not processing. *)
Theorem successful_upload_appends_and_resets (replies : Replies) (st : State)
    (db db' : Store) (es : list Effect) :
  uploadContacts replies st db = (es, db') -> uploadSucceeded es ->
  contactRows db' = contactRows db ++ contactsToInsert st
  /\ length (contactRows db') = (length (contactRows db) + length (validContacts st))%nat
  /\ (forall id, id <> selectedCampaign st -> campaigns db' !! id = campaigns db !! id)
  /\ name <$> campaigns db' !! selectedCampaign st
     = name <$> campaigns db !! selectedCampaign st
  /\ status <$> campaigns db' !! selectedCampaign st
     = status <$> campaigns db !! selectedCampaign st
  /\ runEffects st es = mkState "" None [] [] [] false (uploadProgress st).
Proof.
  intros Hup Hok.
  destruct (uploadContacts_cases replies st db)
    as [[_ E] | [(_ & _ & _ & E) | [(_ & _ & dbu & _ & _ & E)
                                   | (_ & _ & db1 & Hins & _ & E)]]];
    rewrite E in Hup; injection Hup as <- <-.
  - now apply not_succeeded_refused in Hok.
  - now apply not_succeeded_failed in Hok.
  - now apply not_succeeded_update_failed in Hok.
  - apply insertContacts_spec in Hins as (-> & _).
    unfold writeCampaign. cbn [campaigns contactRows].
    split; [reflexivity |]. split.
    { rewrite length_app. unfold contactsToInsert. now rewrite length_map. }
    split; [intros id Hid; now rewrite lookup_alter_ne |].
    rewrite lookup_alter_eq.
    destruct (campaigns db !! selectedCampaign st) as [camp|]; cbn;
      [| repeat split].
    unfold patchCampaign. rewrite lookup_singleton_eq. cbn. repeat split.
Qed.

Lemma successful_upload_appends_and_resets_witness :
  length (contactRows (uploadContacts noErrors firstBatch sampleStore).2)
  = (length (contactRows sampleStore) + length (validContacts firstBatch))%nat.
Proof.
  apply (successful_upload_appends_and_resets noErrors firstBatch sampleStore
           (uploadContacts noErrors firstBatch sampleStore).2
           (uploadContacts noErrors firstBatch sampleStore).1).
  - vm_compute. reflexivity.
  - exists 2%nat. vm_compute. do 3 apply list_elem_of_further. apply list_elem_of_here.
Defined.

(** X16. After a successful submission, submitting again from the state it
    leaves is refused and does not reach the store. *)
Theorem upload_after_success_is_refused (replies replies' : Replies)
    (st : State) (db db' : Store) (es : list Effect) :
  uploadContacts replies st db = (es, db') -> uploadSucceeded es ->
  uploadContacts replies' (runEffects st es) db'
  = ([ShowToast ToastUploadRefused], db').
Proof.
  intros Hup Hok.
  destruct (uploadContacts_cases replies st db)
    as [[_ E] | [(_ & _ & _ & E) | [(_ & _ & dbu & _ & _ & E)
                                   | (_ & _ & db1 & Hins & _ & E)]]];
    rewrite E in Hup; injection Hup as <- <-.
  - now apply not_succeeded_refused in Hok.
  - now apply not_succeeded_failed in Hok.
  - now apply not_succeeded_update_failed in Hok.
  - reflexivity.
Qed.

Lemma upload_after_success_is_refused_witness :
  uploadContacts noErrors
    (runEffects firstBatch (uploadContacts noErrors firstBatch sampleStore).1)
    (uploadContacts noErrors firstBatch sampleStore).2
  = ([ShowToast ToastUploadRefused],
     (uploadContacts noErrors firstBatch sampleStore).2).
Proof.
  apply (upload_after_success_is_refused noErrors noErrors firstBatch sampleStore).
  - vm_compute. reflexivity.
  - exists 2%nat. vm_compute. do 3 apply list_elem_of_further. apply list_elem_of_here.
Defined.

(** ** Uniqueness of addresses within a campaign *)

(** X17. A submission succeeds only if the addresses of the batch are
    pairwise distinct, none of them is already stored for the selected
    campaign, and the selected campaign exists in the store; a file that
    lists an address twice therefore cannot be submitted. *)
Theorem successful_upload_has_fresh_addresses (replies : Replies) (st : State)
    (db db' : Store) (es : list Effect) :
  uploadContacts replies st db = (es, db') -> uploadSucceeded es ->
  NoDup (email <$> validContacts st)
  /\ (forall c, c ∈ validContacts st ->
        (selectedCampaign st, email c) ∉ storeKeys db)
  /\ is_Some (campaigns db !! selectedCampaign st).
Proof.
  intros Hup Hok.
  destruct (uploadContacts_cases replies st db)
    as [[_ E] | [(_ & _ & _ & E) | [(_ & _ & dbu & _ & _ & E)
                                   | (_ & Hne & db1 & Hins & _ & E)]]];
    rewrite E in Hup; injection Hup as <- <-.
  - now apply not_succeeded_refused in Hok.
  - now apply not_succeeded_failed in Hok.
  - now apply not_succeeded_update_failed in Hok.
  - apply insertContacts_spec in Hins as (_ & _ & Hnd & Hk).
    rewrite keys_contactsToInsert in Hnd, Hk.
    assert (Hkey : forall c, c ∈ validContacts st ->
              (selectedCampaign st, email c)
              ∈ (fun c => (selectedCampaign st, email c)) <$> validContacts st).
    { intros c Hc. apply list_elem_of_fmap. eauto. }
    split; [| split].
    + apply (NoDup_fmap_1 (pair (selectedCampaign st))).
      now rewrite <- list_fmap_compose.
    + intros c Hc. now destruct (Hk _ (Hkey c Hc)).
    + destruct (validContacts st) as [|c v]; [congruence |].
      destruct (Hk _ (Hkey c (list_elem_of_here _ _))) as [_ H]. exact H.
Qed.

Lemma successful_upload_has_fresh_addresses_witness :
  NoDup (email <$> validContacts firstBatch).
Proof.
  apply (successful_upload_has_fresh_addresses noErrors firstBatch sampleStore
           (uploadContacts noErrors firstBatch sampleStore).2
           (uploadContacts noErrors firstBatch sampleStore).1).
  - vm_compute. reflexivity.
  - exists 2%nat. vm_compute. do 3 apply list_elem_of_further. apply list_elem_of_here.
Defined.

(** X18. Submissions keep the contacts table within the constraints of
    the schema: if every stored row has its campaign and email, no
    (campaign, email) pair is stored twice and every stored campaign id
    exists, the same holds after any call of [uploadContacts]. *)
Theorem upload_keeps_store_consistent (replies : Replies) (st : State)
    (db : Store) :
  storeConsistent db -> storeConsistent (uploadContacts replies st db).2.
Proof.
  intros (Hkeyed & Hnd & Hfk).
  destruct (uploadContacts_cases replies st db)
    as [[_ E] | [(_ & _ & _ & E) | [(_ & _ & db1 & Hins & _ & E)
                                   | (_ & _ & db1 & Hins & _ & E)]]];
    rewrite E; cbn [snd].
  - now split.
  - now split.
  - apply insertContacts_spec in Hins as (-> & Hall & Hnd' & Hk).
    unfold storeConsistent, storeKeys in *.
    cbn [campaigns contactRows]. rewrite omap_app.
    split; [now apply Forall_app |]. split.
    + apply NoDup_app. split; [assumption |]. split; [|assumption].
      intros k Hk1 Hk2. now destruct (Hk k Hk2).
    + apply Forall_app. split; [assumption |].
      apply Forall_forall. intros k Hin. now destruct (Hk k Hin).
  - apply insertContacts_spec in Hins as (-> & Hall & Hnd' & Hk).
    unfold storeConsistent, storeKeys, writeCampaign in *.
    cbn [campaigns contactRows]. rewrite omap_app.
    split; [now apply Forall_app |]. split.
    + apply NoDup_app. split; [assumption |]. split; [|assumption].
      intros k Hk1 Hk2. now destruct (Hk k Hk2).
    + apply Forall_app. split.
      * eapply Forall_impl; [exact Hfk |]. intros k Hc. cbn beta in *.
        now apply lookup_alter_is_Some.
      * apply Forall_forall. intros k Hin. apply lookup_alter_is_Some.
        now destruct (Hk k Hin).
Qed.

Lemma upload_keeps_store_consistent_witness :
  storeConsistent (uploadContacts updateRejected firstBatch sampleStore).2.
Proof.
  apply upload_keeps_store_consistent.
  vm_compute. repeat split; constructor.
Defined.

(** X19. Once a batch has been submitted with success, a later batch for
    the same campaign that holds one of its addresses fails: the failure
    notification is raised, the store stays as it is, and the lists of the
    component are kept. *)
Theorem resubmitted_address_fails (replies1 replies2 : Replies)
    (st1 st2 : State) (db db1 : Store) (es1 : list Effect) (c1 c2 : Contact) :
  uploadContacts replies1 st1 db = (es1, db1) -> uploadSucceeded es1 ->
  selectedCampaign st2 = selectedCampaign st1 ->
  c1 ∈ validContacts st1 -> c2 ∈ validContacts st2 -> email c2 = email c1 ->
  uploadContacts replies2 st2 db1
  = ([SetIsProcessing true; InsertContacts (contactsToInsert st2);
      ShowToast ToastUploadFailed; SetIsProcessing false], db1).
Proof.
  intros Hup Hok Hsel H1 H2 Hmail.
  destruct (uploadContacts_cases replies1 st1 db)
    as [[_ E] | [(_ & _ & _ & E) | [(_ & _ & dbu & _ & _ & E)
                                   | (Hsel1 & _ & dbi & Hins & _ & E)]]];
    rewrite E in Hup; injection Hup as <- <-.
  - now apply not_succeeded_refused in Hok.
  - now apply not_succeeded_failed in Hok.
  - now apply not_succeeded_update_failed in Hok.
  - apply insertContacts_spec in Hins as (-> & _).
    set (db1 := writeCampaign _ _ _).
    assert (Hstored : (selectedCampaign st2, email c2) ∈ storeKeys db1).
    { unfold storeKeys, db1, writeCampaign. cbn [contactRows].
      rewrite omap_app, keys_contactsToInsert, Hsel, Hmail.
      apply elem_of_app. right. apply list_elem_of_fmap. eauto. }
    assert (Hfail : forall db2,
              insertContacts (insertError replies2) (contactsToInsert st2) db1
              <> Some db2).
    { intros db2 Hins2. apply insertContacts_spec in Hins2 as (_ & _ & _ & Hk).
      rewrite keys_contactsToInsert in Hk.
      destruct (Hk (selectedCampaign st2, email c2)) as [Hfresh _]; [|tauto].
      apply list_elem_of_fmap. eauto. }
    destruct (uploadContacts_cases replies2 st2 db1)
      as [[[Hs | Hv] _] | [(_ & _ & _ & E2) | [(_ & _ & db2 & Hins2 & _)
                                             | (_ & _ & db2 & Hins2 & _)]]].
    + congruence.
    + rewrite Hv in H2. now apply elem_of_nil in H2.
    + exact E2.
    + now apply Hfail in Hins2.
    + now apply Hfail in Hins2.
Qed.

Lemma resubmitted_address_fails_witness :
  uploadContacts noErrors firstBatch
    (uploadContacts noErrors firstBatch sampleStore).2
  = ([SetIsProcessing true; InsertContacts (contactsToInsert firstBatch);
      ShowToast ToastUploadFailed; SetIsProcessing false],
     (uploadContacts noErrors firstBatch sampleStore).2).
Proof.
  apply (resubmitted_address_fails noErrors noErrors
           firstBatch firstBatch sampleStore
           (uploadContacts noErrors firstBatch sampleStore).2
           (uploadContacts noErrors firstBatch sampleStore).1
           (mkContact "a@b.com" (Some "Alice") None None None)
           (mkContact "a@b.com" (Some "Alice") None None None)).
  - vm_compute. reflexivity.
  - exists 2%nat. vm_compute. do 3 apply list_elem_of_further. apply list_elem_of_here.
  - reflexivity.
  - apply list_elem_of_here.
  - apply list_elem_of_here.
  - reflexivity.
Defined.

(** ** Nullable fields and the upload button *)

Lemma orNull_not_empty_string (value : option string) :
  orNull value <> JString EmptyString.
Proof.
  destruct value as [s|]; cbn [orNull]; [|discriminate].
  destruct s; cbn [isEmpty]; discriminate.
Qed.

(** X20. No row handed to the insert carries an empty string in a
    nullable field: a field whose value is the empty string, as an
    optional cell left blank in the file gives, is sent as null. *)
Theorem blank_fields_are_sent_as_null (st : State) (row : gmap string Json) :
  row ∈ contactsToInsert st ->
  (forall k, k ∈ nullableKeys -> row !! k <> Some (JString EmptyString))
  /\ exists contact,
       contact ∈ validContacts st /\ row = contactToInsert (selectedCampaign st) contact
       /\ (first_name contact = Some EmptyString -> row !! "first_name" = Some JNull)
       /\ (last_name contact = Some EmptyString -> row !! "last_name" = Some JNull)
       /\ (company contact = Some EmptyString -> row !! "company" = Some JNull)
       /\ (title contact = Some EmptyString -> row !! "title" = Some JNull).
Proof.
  unfold contactsToInsert. change (map ?f ?l) with (f <$> l).
  intros Hrow. apply list_elem_of_fmap in Hrow as (contact & -> & Hc).
  destruct (contactToInsert_fields (selectedCampaign st) contact)
    as (_ & _ & _ & Hf & Hl & Hco & Ht).
  split.
  - intros k Hk. unfold nullableKeys in Hk.
    repeat (apply elem_of_cons in Hk as [-> | Hk];
            [first [rewrite Hf | rewrite Hl | rewrite Hco | rewrite Ht];
             intros [= H]; now apply orNull_not_empty_string in H |]).
    now apply elem_of_nil in Hk.
  - exists contact. split; [assumption |]. split; [reflexivity |].
    rewrite Hf, Hl, Hco, Ht. repeat split; now intros ->.
Qed.

Lemma blank_fields_are_sent_as_null_witness :
  contactToInsert "c1" (mkContact "e@f.net" None None None None) !! "company"
  <> Some (JString EmptyString).
Proof.
  apply (blank_fields_are_sent_as_null secondBatch).
  - apply list_elem_of_here.
  - do 2 apply list_elem_of_further. apply list_elem_of_here.
Defined.

(** X21. The guard of [uploadContacts] agrees with the upload button: the
    submission is refused exactly when the button is not shown or no
    campaign is selected, so a click on the enabled button always reaches
    the insert. *)
Theorem refusal_matches_upload_button (replies : Replies) (st : State)
    (db : Store) :
  (ShowToast ToastUploadRefused ∈ (uploadContacts replies st db).1
   <-> uploadButtonShown st = false \/ isEmpty (selectedCampaign st) = true)
  /\ (uploadButtonShown st = true -> uploadButtonDisabled st = false ->
      InsertContacts (contactsToInsert st) ∈ (uploadContacts replies st db).1).
Proof.
  assert (Hshown : uploadButtonShown st = false <-> validContacts st = []).
  { unfold uploadButtonShown. destruct (validContacts st); cbn; split; congruence. }
  destruct (uploadContacts_cases replies st db)
    as [[Hg E] | [(Hs & Hv & _ & E) | [(Hs & Hv & db1 & _ & _ & E)
                                      | (Hs & Hv & db1 & _ & _ & E)]]];
    rewrite E; cbn [fst].
  - split.
    + split; [intros _ | intros _; apply list_elem_of_here].
      destruct Hg as [Hg | Hg]; [right; now rewrite Hg | left; now apply Hshown].
    + intros H1 H2. exfalso. unfold uploadButtonDisabled in H2.
      apply orb_false_iff in H2 as [_ H2]. apply isEmpty_false in H2.
      destruct Hg as [Hg | Hg]; [congruence |].
      apply Hshown in Hg. congruence.
  - split.
    + split; [intros H; trace_member H |].
      intros [H | H]; [apply Hshown in H; congruence |].
      destruct (selectedCampaign st); [congruence | discriminate].
    + intros _ _. apply list_elem_of_further, list_elem_of_here.
  - split.
    + split; [intros H; trace_member H |].
      intros [H | H]; [apply Hshown in H; congruence |].
      destruct (selectedCampaign st); [congruence | discriminate].
    + intros _ _. apply list_elem_of_further, list_elem_of_here.  - split.
    + split; [intros H; trace_member H |].
      intros [H | H]; [apply Hshown in H; congruence |].
      destruct (selectedCampaign st); [congruence | discriminate].
    + intros _ _. apply list_elem_of_further, list_elem_of_here.
Qed.

(** ** Blank lines and quoted cells *)

Lemma filter_idempotent {A : Type} (p : A -> bool) (l : list A) :
  List.filter p (List.filter p l) = List.filter p l.
Proof.
  induction l as [|x l IH]; [reflexivity |].
  cbn [List.filter]. destruct (p x) eqn:Hp; [|exact IH].
  cbn [List.filter]. now rewrite Hp, IH.
Qed.

Lemma filter_map_commute {A B : Type} (f : A -> B) (p : B -> bool) (l : list A) :
  map f (List.filter (fun x => p (f x)) l) = List.filter p (map f l).
Proof.
  induction l as [|x l IH]; [reflexivity |].
  cbn [List.filter map]. destruct (p (f x)); cbn [map]; now rewrite IH.
Qed.

Lemma Forall_List_filter {A : Type} (P : A -> Prop) (p : A -> bool) (l : list A) :
  Forall P l -> Forall P (List.filter p l).
Proof.
  induction 1 as [|x l Hx _ IH]; [constructor |].
  cbn [List.filter]. destruct (p x); [now constructor | assumption].
Qed.

(** X22. Blank lines after the header change nothing: a text is processed
    exactly as the text without those of its lines, after the first, in
    which every cell is empty once normalized and trimmed; progress is
    counted over the remaining lines only. *)
Theorem blank_lines_are_ignored (fileName header : string) (ls : list string) :
  Forall (fun l => ~ occursIn "010" l) (header :: ls) ->
  processFile fileName (lines (header :: ls))
  = processFile fileName
      (lines (header :: List.filter (fun l => hasContent (parseLine l)) ls)).
Proof.
  intros Hall.
  assert (Hall' : Forall (fun l => ~ occursIn "010" l)
                    (header :: List.filter (fun l => hasContent (parseLine l)) ls)).
  { apply Forall_cons in Hall as [H1 H2].
    constructor; [assumption | now apply Forall_List_filter]. }
  unfold processFile, readRows.
  destruct (endsWith fileName ".csv"); [|reflexivity].
  rewrite !parseCsv_lines by (assumption || discriminate).
  cbn [map]. unfold ingestRows.
  change (headersOf (parseLine header :: ?r)) with (map toLowerCase (parseLine header)).
  unfold dataRowsOf. cbn [drop]. rewrite !drop_0.
  now rewrite filter_map_commute, filter_idempotent.
Qed.

Lemma blank_lines_are_ignored_witness :
  processFile "contacts.csv" (lines ["email,name"; ""; "a@b.com,Al"; " , "])
  = processFile "contacts.csv"
      (lines ("email,name"
              :: List.filter (fun l => hasContent (parseLine l))
                   [""; "a@b.com,Al"; " , "])).
Proof.
  apply blank_lines_are_ignored.
  repeat (apply Forall_cons; split; [vm_compute; intuition discriminate |]).
  apply Forall_nil. exact I.
Defined.

Lemma isQuote_not_white_space (q : ascii) :
  isQuote q = true -> isWhiteSpace q = false.
Proof.
  unfold isQuote. rewrite orb_true_iff, !Ascii.eqb_eq.
  intros [-> | ->]; reflexivity.
Qed.

Lemma lastUnit_snoc (s : string) (c : ascii) :
  lastUnit (s +:+ String c EmptyString) = Some c.
Proof.
  induction s as [|a s IH]; [reflexivity |].
  rewrite append_cons. destruct s as [|b s']; [reflexivity |].
  rewrite append_cons in *. exact IH.
Qed.

Lemma dropLast_snoc (s : string) (c : ascii) :
  dropLast (s +:+ String c EmptyString) = s.
Proof.
  induction s as [|a s IH]; [reflexivity |].
  rewrite append_cons. destruct s as [|b s']; [reflexivity |].
  rewrite append_cons in *.
  change (dropLast (String a (String b (s' +:+ String c EmptyString))))
    with (String a (dropLast (String b (s' +:+ String c EmptyString)))).
  now rewrite IH.
Qed.

(** X23. Normalizing a cell that is enclosed in quote characters gives
    back exactly what stands between them, inner white space and inner
    quotes included; a cell with neither white space nor a quote at its
    ends is left as it is. *)
Theorem quoted_cell_round_trip (q q' : ascii) (s : string) :
  isQuote q = true -> isQuote q' = true ->
  normalizeCell (String q (s +:+ String q' EmptyString)) = s
  /\ (trimmed s -> startsWithQuote s = false -> endsWithQuote s = false ->
      normalizeCell s = s).
Proof.
  intros Hq Hq'. split.
  - unfold normalizeCell.
    rewrite trim_trimmed.
    + unfold stripQuotes. rewrite Hq, lastUnit_snoc, Hq'. apply dropLast_snoc.
    + split; intros c Hc.
      * injection Hc as <-. now apply isQuote_not_white_space.
      * change (String q (s +:+ String q' EmptyString))
          with (String q s +:+ String q' EmptyString) in Hc.
        rewrite lastUnit_snoc in Hc. injection Hc as <-.
        now apply isQuote_not_white_space.
  - intros Htr Hs He. unfold normalizeCell. rewrite (trim_trimmed s Htr).
    unfold stripQuotes. unfold startsWithQuote in Hs. unfold endsWithQuote in He.
    destruct s as [|a s']; [reflexivity |]. rewrite Hs.
    destruct (lastUnit (String a s')) as [c|]; [now rewrite He | reflexivity].
Qed.

Lemma quoted_cell_round_trip_witness :
  normalizeCell (String "'" (" O'Neil " +:+ String "'" EmptyString)) = " O'Neil ".
Proof.
  apply (quoted_cell_round_trip "'" "'" " O'Neil "); reflexivity.
Defined.

(** ** From the file to the store *)

(** X24. Only addresses that passed validation reach the store: when an
    ingestion has ended on the "File processed" notification and the
    lists it left are submitted, the insert receives as many rows as the
    notification counted valid addresses, and the email of every row
    passes [validateEmail]. *)
Theorem only_validated_addresses_are_inserted (replies : Replies) (st : State)
    (fileName text : string) (nValid nInvalid : nat) (db : Store)
    (rows : list (gmap string Json)) :
  ShowToast (ToastFileProcessed nValid nInvalid) ∈ processFile fileName text ->
  InsertContacts rows
  ∈ (uploadContacts replies (runEffects st (processFile fileName text)) db).1 ->
  length rows = nValid
  /\ forall row, row ∈ rows ->
       exists e, row !! "email" = Some (JString e) /\ validateEmail e = true.
Proof.
  intros Htoast Hins. apply uploadContacts_insert in Hins. subst rows.
  destruct (processFile_cases fileName text)
    as [[_ E] | [(rs & _ & _ & E) | (rs & _ & _ & E)]];
    cbv zeta in E; rewrite E in Htoast |- *.
  - trace_member Htoast.
  - trace_member Htoast.
  - rewrite runEffects_ingested. unfold contactsToInsert.
    cbn [validContacts selectedCampaign].
    trace_member Htoast. injection Htoast as -> _.
    split; [now rewrite length_map |].
    intros row Hrow. change (map ?f ?l) with (f <$> l) in Hrow.
    apply list_elem_of_fmap in Hrow as (c & -> & Hc).
    apply elem_of_List_filter in Hc as [_ Hc].
    exists (email c). split; [|exact Hc].
    now destruct (contactToInsert_fields (selectedCampaign st) c) as (_ & _ & H & _).
Qed.

Lemma only_validated_addresses_are_inserted_witness :
  length (contactsToInsert
            (runEffects secondBatch (processFile "contacts.csv" sampleText)))
  = 1%nat.
Proof.
  apply (only_validated_addresses_are_inserted noErrors secondBatch
           "contacts.csv" sampleText 1 1 sampleStore).
  - vm_compute. do 8 apply list_elem_of_further. apply list_elem_of_here.
  - vm_compute. apply list_elem_of_further, list_elem_of_here.
Defined.

(** X25. The first line of the text is always taken as the header and
    never yields a contact: every contact that an ingestion lists is the
    candidate of one of the later lines, read through the columns that
    the first line resolves. *)
Theorem contacts_come_from_later_lines (fileName header : string)
    (ls : list string) (cs : list Contact) (c : Contact) :
  Forall (fun l => ~ occursIn "010" l) (header :: ls) ->
  SetContacts cs ∈ processFile fileName (lines (header :: ls)) ->
  c ∈ cs ->
  exists l, l ∈ ls
    /\ candidateOf (columnMapOf (parseLine header)) (parseLine l) = Some c.
Proof.
  intros Hall H Hc.
  destruct (processFile_cases fileName (lines (header :: ls)))
    as [[_ E] | [(rows & _ & _ & E) | (rows & Hrows & _ & E)]];
    cbv zeta in E; rewrite E in H.
  - trace_member H.
  - trace_member H.
  - trace_member H. injection H as ->.
    unfold readRows in Hrows.
    destruct (endsWith fileName ".csv").
    + injection Hrows as <-.
      rewrite parseCsv_lines in Hc by (assumption || discriminate).
      cbn [map] in Hc.
      apply candidate_origin in Hc as (row & Hrow & _ & Hcand).
      unfold dataRowsOf in Hrow. cbn [drop] in Hrow. rewrite drop_0 in Hrow.
      apply elem_of_List_filter in Hrow as [Hrow _].
      change (map parseLine ls) with (parseLine <$> ls) in Hrow.
      apply list_elem_of_fmap in Hrow as (l & -> & Hl).
      exists l. split; [assumption | exact Hcand].
    + destruct (endsWith fileName ".xlsx"); [discriminate |].
      injection Hrows as <-. cbn in Hc. now apply elem_of_nil in Hc.
Qed.

Lemma contacts_come_from_later_lines_witness :
  exists l, l ∈ ["a@b.com,Alice"; ",Bob"]
    /\ candidateOf (columnMapOf (parseLine "Email,First Name")) (parseLine l)
       = Some (mkContact "a@b.com" (Some "Alice") None None None).
Proof.
  apply (contacts_come_from_later_lines "contacts.csv" "Email,First Name"
           ["a@b.com,Alice"; ",Bob"]
           [mkContact "a@b.com" (Some "Alice") None None None]).
  - repeat (apply Forall_cons; split; [vm_compute; intuition discriminate |]).
    apply Forall_nil. exact I.
  - vm_compute. do 4 apply list_elem_of_further. apply list_elem_of_here.
  - apply list_elem_of_here.
Defined.
